(** * Crime-map data sources: a shallow embedding of [src/app/data_sources.py]

    The module normalises three municipal crime tables, their boundary
    geometries and their population figures, and composes them into
    bundles.  Data frames are modelled as lists of rows, a row being a
    finite map from column names to cells (a missing key is pandas' NaN);
    Python dictionaries are [gmap]s; exceptions are [None] in [option].

    Modelling conventions:
    - text is ASCII: a byte outside the ASCII letters is uncased;
    - the population figures of the bundles are exact rationals ([Q]), an
      idealisation; the area-weighted apportionment is modelled a second
      time in the arithmetic of float64 ([F64]), and what is claimed of
      the sum of its values is proved there;
    - a text cell holds what [astype(str)] would render for it;
    - [pd.to_datetime], the geometric predicates, reprojection and area
      come from libraries and are parameters of the model. *)

From Stdlib Require Import Ascii String ZArith QArith Qabs Lqa Qpower SpecFloat Lia.
From stdpp Require Import base option list strings gmap fin_maps.

Open Scope string_scope.

#[local] Set Warnings "-clear-no-such-hyp".

(** ** Python string methods *)

Module PyStr.

Definition is_upper (c : ascii) : bool :=
  let n := Ascii.N_of_ascii c in ((65 <=? n) && (n <=? 90))%N.

Definition is_lower (c : ascii) : bool :=
  let n := Ascii.N_of_ascii c in ((97 <=? n) && (n <=? 122))%N.

(** [str.isalpha]-style casedness, restricted to ASCII. *)
Definition is_cased (c : ascii) : bool := is_upper c || is_lower c.

Definition to_upper (c : ascii) : ascii :=
  if is_lower c then Ascii.ascii_of_N (Ascii.N_of_ascii c - 32) else c.

Definition to_lower (c : ascii) : ascii :=
  if is_upper c then Ascii.ascii_of_N (Ascii.N_of_ascii c + 32) else c.

(** [str.title()]: a cased character is upper-cased when the character
    before it is not cased, and lower-cased otherwise. *)
Fixpoint title_from (previous_is_cased : bool) (s : string) : string :=
  match s with
  | EmptyString => EmptyString
  | String c rest =>
      String (if previous_is_cased then to_lower c else to_upper c)
             (title_from (is_cased c) rest)
  end.

Definition title (s : string) : string := title_from false s.

(** [str.isspace] on one ASCII character: TAB..CR, FS..US and space. *)
Definition is_space (c : ascii) : bool :=
  let n := Ascii.N_of_ascii c in
  (((9 <=? n) && (n <=? 13)) || ((28 <=? n) && (n <=? 32)))%N.

Definition of_list (l : list ascii) : string := string_of_list_ascii l.
Definition to_list (s : string) : list ascii := list_ascii_of_string s.

Fixpoint drop_while (p : ascii → bool) (l : list ascii) : list ascii :=
  match l with
  | [] => []
  | c :: rest => if p c then drop_while p rest else l
  end.

Fixpoint take_while (p : ascii → bool) (l : list ascii) : list ascii :=
  match l with
  | [] => []
  | c :: rest => if p c then c :: take_while p rest else []
  end.

Definition rstrip_by (p : ascii → bool) (s : string) : string :=
  of_list (rev (drop_while p (rev (to_list s)))).

Definition lstrip_by (p : ascii → bool) (s : string) : string :=
  of_list (drop_while p (to_list s)).

(** [str.strip()] with no argument. *)
Definition strip (s : string) : string := rstrip_by is_space (lstrip_by is_space s).

Definition mem_chars (chars : string) (c : ascii) : bool :=
  bool_decide (c ∈ to_list chars).

(** [str.rstrip(chars)]: [chars] is a set of characters, not a suffix. *)
Definition rstrip (chars : string) (s : string) : string :=
  rstrip_by (mem_chars chars) s.

(** [s.split(" ")[0]]: the text before the first space. *)
Definition split_first (s : string) : string :=
  of_list (take_while (λ c, negb (bool_decide (c = " "%char))) (to_list s)).

(** [str.isascii()]. *)
Definition is_ascii (s : string) : bool :=
  forallb (λ c, (Ascii.N_of_ascii c <? 128)%N) (to_list s).

End PyStr.

(** ** Data model *)

Record date := mkdate { year : Z; month : Z; day : Z }.

(** What [pd.to_datetime] makes of one string that it accepts. *)
Inductive parsed := Timestamp (d : date) | NaT.

(** A table as [pd.read_csv] or a shapefile's attribute table gives it:
    text cells, a missing key standing for NaN. *)
Abbreviation text_row := (gmap string string).

(** The population dictionaries; the key [None] is a NaN label. *)
Abbreviation popdict := (gmap (option string) Q).

Inductive cell (G : Type) :=
| Str (s : string)
| Date (d : date)
| Geom (g : G)
| Idx (i : nat).

Arguments Str {G} s.
Arguments Date {G} d.
Arguments Geom {G} g.
Arguments Idx {G} i.

Abbreviation row G := (gmap string (cell G)).
Abbreviation DataFrame G := (list (row G)).

Record feature (G : Type) := mkfeature { attrs : text_row; geometry : G }.

Arguments mkfeature {G} attrs geometry.
Arguments attrs {G} f.
Arguments geometry {G} f.

Record GeoDataFrame (G : Type) := mkgeo { crs : string; features : list (feature G) }.

Arguments mkgeo {G} crs features.
Arguments crs {G} g.
Arguments features {G} g.

Record Bundle (G : Type) := mkbundle {
  crime : DataFrame G;
  geo : GeoDataFrame G;
  population : popdict;
  zoom : Q;
  population_year : string
}.

Arguments mkbundle {G} crime geo population zoom population_year.
Arguments crime {G} b.
Arguments geo {G} b.
Arguments population {G} b.
Arguments zoom {G} b.
Arguments population_year {G} b.

(** [df[c] = v], where assigning NaN leaves the cell missing. *)
Definition set_col {G} (c : string) (v : option (cell G)) (r : row G) : row G :=
  match v with Some x => <[c:=x]> r | None => delete c r end.

Definition set_attr {G} (c : string) (v : option string) (f : feature G) : feature G :=
  mkfeature (match v with Some x => <[c:=x]> (attrs f) | None => delete c (attrs f) end)
            (geometry f).

(** [df[cols]] on one row. *)
Definition select {V} (cols : list string) (r : gmap string V) : gmap string V :=
  filter (λ kv, kv.1 ∈ cols) r.

(** [df.drop(columns=cols, errors="ignore")] on one row. *)
Definition drop_cols {V} (cols : list string) (r : gmap string V) : gmap string V :=
  filter (λ kv, kv.1 ∉ cols) r.

(** [df.rename(columns={old: new})] on one row. *)
Definition rename_col {V} (old new : string) (r : gmap string V) : gmap string V :=
  match r !! old with
  | Some v => <[new:=v]> (delete old r)
  | None => delete new r
  end.

(** The string held by a cell; [.str] methods and [Series.map] see NaN
    for anything else. *)
Definition text {G} (v : option (cell G)) : option string :=
  match v with Some (Str s) => Some s | _ => None end.

Definition the_geometry {G} (v : option (cell G)) : option G :=
  match v with Some (Geom g) => Some g | _ => None end.

Definition the_date {G} (v : option (cell G)) : option date :=
  match v with Some (Date d) => Some d | _ => None end.

(** [astype(str)] on a text column.  A missing value is rendered as the
    text ["nan"], which is what pandas does before version 3; from version
    3 on it stays missing. *)
Definition astype_str (v : option string) : string := default "nan" v.

(** [fillna(value)]. *)
Definition fillna (value : string) (v : option string) : option string :=
  Some (default value v).

(** [Series.unique()]: distinct values in order of first appearance. *)
Fixpoint unique {A} `{EqDecision A} (l : list A) : list A :=
  match l with
  | [] => []
  | x :: rest => x :: filter (λ y, y ≠ x) (unique rest)
  end.

(** [Series.dropna()]. *)
Definition dropna {A} (l : list (option A)) : list A := omap id l.

(** Building a dictionary by successive item assignment: on a repeated
    key the later value replaces the earlier one. *)
Definition to_dict {K} `{Countable K} {V} (items : list (K * V)) : gmap K V :=
  foldl (λ m kv, <[kv.1:=kv.2]> m) ∅ items.

Definition Qsum (l : list Q) : Q := foldr Qplus 0%Q l.

Definition dict_values_sum {K} `{Countable K} (m : gmap K Q) : Q :=
  map_fold (λ _ v acc, (v + acc)%Q) 0%Q m.

(** The geometry library: shapely predicates, planar area, reprojection
    between two coordinate reference systems. *)
Class Geometry (G : Type) := {
  intersects : G → G → bool;
  within : G → G → bool;
  area : G → Q;
  reproject : string → string → G → G
}.

(** The configuration module and the files it points to.  A path constant
    stands for the table the I/O layer reads from it. *)
Record Env (G : Type) := mkenv {
  to_datetime : string → option parsed;
  CAMBRIDGE_CRIME_CSV : list text_row;
  CAMBRIDGE_CRIME_MACROS : gmap string string;
  CAMBRIDGE_NEIGHBORHOOD_NAME_MAP : gmap string string;
  CAMBRIDGE_POP_2020 : gmap string Q;
  CAMBRIDGE_SHAPEFILE : GeoDataFrame G;
  BOSTON_CRIME_CSV : list text_row;
  BOSTON_CRIME_MACROS : gmap string string;
  BOSTON_NEIGHBORHOOD_NAME_MAP : gmap string string;
  BOSTON_SHAPEFILE : GeoDataFrame G;
  load_boston_population : option (gmap string Q);
  SOMERVILLE_CRIME_CSV : list text_row;
  SOMERVILLE_CRIME_MACROS : gmap string string;
  SOMERVILLE_SHAPEFILE : GeoDataFrame G;
  SOMERVILLE_TOTAL_POP_2022 : Z;
  MA_CENSUS_BLOCKS : GeoDataFrame G
}.

Arguments to_datetime {G}.
Arguments CAMBRIDGE_CRIME_CSV {G}.
Arguments CAMBRIDGE_CRIME_MACROS {G}.
Arguments CAMBRIDGE_NEIGHBORHOOD_NAME_MAP {G}.
Arguments CAMBRIDGE_POP_2020 {G}.
Arguments CAMBRIDGE_SHAPEFILE {G}.
Arguments BOSTON_CRIME_CSV {G}.
Arguments BOSTON_CRIME_MACROS {G}.
Arguments BOSTON_NEIGHBORHOOD_NAME_MAP {G}.
Arguments BOSTON_SHAPEFILE {G}.
Arguments load_boston_population {G}.
Arguments SOMERVILLE_CRIME_CSV {G}.
Arguments SOMERVILLE_CRIME_MACROS {G}.
Arguments SOMERVILLE_SHAPEFILE {G}.
Arguments SOMERVILLE_TOTAL_POP_2022 {G}.
Arguments MA_CENSUS_BLOCKS {G}.

(** ** The loaders *)

Section Loaders.
Context {G : Type} `{!Geometry G} (env : Env G).

(** [pd.to_datetime(series)] with the default [errors="raise"], on one
    element: NaN becomes NaT, a string that does not parse raises. *)
Definition to_datetime_raise (v : option string) : option (option (cell G)) :=
  match v with
  | None => Some None
  | Some s =>
      match to_datetime env s with
      | Some (Timestamp d) => Some (Some (Date d))
      | Some NaT => Some None
      | None => None
      end
  end.

(** [pd.to_datetime(series, errors="coerce")] on one element. *)
Definition to_datetime_coerce (s : string) : option (cell G) :=
  match to_datetime env s with
  | Some (Timestamp d) => Some (Date d)
  | _ => None
  end.

(** [geo_df.to_crs(epsg=...)]. *)
Definition to_crs (target : string) (geo_df : GeoDataFrame G) : GeoDataFrame G :=
  mkgeo target
    ((λ f, mkfeature (attrs f) (reproject (crs geo_df) target (geometry f)))
       <$> features geo_df).

Definition normalize_crs (geo_df : GeoDataFrame G) : GeoDataFrame G :=
  if bool_decide (crs geo_df ≠ "EPSG:4326") then to_crs "EPSG:4326" geo_df else geo_df.

(** [geo_df.assign(City=name)] and column assignment on a geometry frame. *)
Definition assign_attr (c : string) (v : feature G → option string)
    (geo_df : GeoDataFrame G) : GeoDataFrame G :=
  mkgeo (crs geo_df) ((λ f, set_attr c (v f) f) <$> features geo_df).

(** One row of [load_cambridge_crime]. *)
Definition cambridge_record (r : text_row) : option (row G) :=
  let df := Str <$> select ["Crime Date Time"; "Crime"; "Neighborhood"; "Reporting Area"] r in
  d ← to_datetime_raise (PyStr.split_first <$> text (df !! "Crime Date Time"));
  let df := set_col "Date" d df in
  let df := set_col "Macro Crime"
              (Str <$> (text (df !! "Crime") ≫= (CAMBRIDGE_CRIME_MACROS env !!.))) df in
  Some df.

Definition load_cambridge_crime : option (DataFrame G) :=
  mapM cambridge_record (CAMBRIDGE_CRIME_CSV env).

Definition load_cambridge_geo : GeoDataFrame G :=
  let geo_df := normalize_crs (CAMBRIDGE_SHAPEFILE env) in
  assign_attr "Mapped_Name"
    (λ f, attrs f !! "NAME" ≫= (CAMBRIDGE_NEIGHBORHOOD_NAME_MAP env !!.)) geo_df.

(** [series.map(table).fillna(series)]. *)
Definition map_fillna (table : gmap string string) (v : option string) : option string :=
  match v ≫= (table !!.) with
  | Some mapped => Some mapped
  | None => v
  end.

(** One row of [load_boston_crime]. *)
Definition boston_record (r : text_row) : option (row G) :=
  let df := Str <$> select ["From Date"; "Crime"; "Neighborhood"; "BPD District"] r in
  d ← to_datetime_raise (PyStr.split_first <$> text (df !! "From Date"));
  let df := set_col "Date" d df in
  let df := set_col "Crime" (Str <$> (PyStr.title <$> text (df !! "Crime"))) df in
  let df := set_col "Macro Crime"
              (Str <$> (text (df !! "Crime") ≫= (BOSTON_CRIME_MACROS env !!.))) df in
  let df := set_col "Mapped_Neighborhood"
              (Str <$> map_fillna (BOSTON_NEIGHBORHOOD_NAME_MAP env)
                         (text (df !! "Neighborhood"))) df in
  Some df.

Definition load_boston_crime : option (DataFrame G) :=
  mapM boston_record (BOSTON_CRIME_CSV env).

Definition load_boston_geo : GeoDataFrame G :=
  let geo_df := normalize_crs (BOSTON_SHAPEFILE env) in
  assign_attr "Mapped_Name"
    (λ f, map_fillna (BOSTON_NEIGHBORHOOD_NAME_MAP env) (attrs f !! "blockgr202")) geo_df.

Definition _build_area_weighted_population
    (geo_df : GeoDataFrame G) (total_population : Z) : popdict :=
  let area_df := to_crs "EPSG:26986" geo_df in
  let areas := (λ f, area (geometry f)) <$> features area_df in
  let total_area := Qsum areas in
  if Qeq_bool total_area 0 then
    to_dict ((λ name, (Some name, inject_Z total_population))
               <$> unique (dropna ((λ f, attrs f !! "NBHD") <$> features geo_df)))
  else
    to_dict ((λ f, (attrs f !! "NBHD",
                    (area (geometry f) / total_area * inject_Z total_population)%Q))
               <$> features area_df).

Definition load_somerville_geo : GeoDataFrame G :=
  let geo_df := normalize_crs (SOMERVILLE_SHAPEFILE env) in
  assign_attr "Mapped_Name" (λ f, attrs f !! "NBHD") geo_df.

(** The text handed to the date parser for one Somerville row. *)
Definition somerville_date_text (r : text_row) : string :=
  let day_month :=
    PyStr.strip (astype_str (fillna "" (r !! "Day and Month Reported"))) in
  let year_part := astype_str (r !! "Year Reported") in
  (if bool_decide (day_month ≠ "") then day_month else "01/01") +:+ "/" +:+ year_part.

(** The column statements of [load_somerville_crime] before the joins. *)
Definition somerville_record (r : text_row) : row G :=
  let df : row G := Str <$> r in
  let df := set_col "Date" (Some (Str (somerville_date_text r))) df in
  let df := set_col "Date" (text (df !! "Date") ≫= to_datetime_coerce) df in
  let df := select ["Date"; "Offense Type"; "Block Code"] df in
  let df := set_col "Crime"
              (Some (Str (PyStr.title (astype_str (text (df !! "Offense Type")))))) df in
  let df := set_col "Macro Crime"
              (Str <$> (text (df !! "Crime") ≫= (SOMERVILLE_CRIME_MACROS env !!.))) df in
  set_col "Block Code"
    (Some (Str (PyStr.rstrip ".0" (astype_str (text (df !! "Block Code")))))) df.

(** [blocks[blocks["TOWN"] == "SOMERVILLE"]], reprojected when needed. *)
Definition somerville_blocks : GeoDataFrame G :=
  let blocks := MA_CENSUS_BLOCKS env in
  normalize_crs
    (mkgeo (crs blocks)
       (filter (λ f, attrs f !! "TOWN" = Some "SOMERVILLE") (features blocks))).

(** [df.merge(right[["GEOID20", "geometry"]], left_on="Block Code",
    right_on="GEOID20", how="left")] on one left row: one output row per
    matching block in the blocks' order, or the row itself with the two
    new columns missing. *)
Definition merge_left (right : list (feature G)) (r : row G) : list (row G) :=
  match filter (λ b, attrs b !! "GEOID20" = text (r !! "Block Code")) right with
  | [] => [r]
  | matches =>
      (λ b, set_col "geometry" (Some (Geom (geometry b)))
              (set_col "GEOID20" (Str <$> attrs b !! "GEOID20") r)) <$> matches
  end.

(** [gpd.sjoin(df, right[["NBHD", "geometry"]], how="left",
    predicate="intersects")] on one left row: one output row per
    intersecting polygon, or the row itself when its geometry is missing
    or meets no polygon. *)
Definition sjoin_left (right : list (feature G)) (r : row G) : list (row G) :=
  match the_geometry (r !! "geometry") with
  | Some g =>
      match filter (λ p, intersects g (geometry p.2) = true) (imap pair right) with
      | [] => [r]
      | hits =>
          (λ p, set_col "NBHD" (Str <$> attrs p.2 !! "NBHD")
                  (set_col "index_right" (Some (Idx p.1)) r)) <$> hits
      end
  | None => [r]
  end.

(** The rows one crime row contributes to [load_somerville_crime]. *)
Definition somerville_rows (r : text_row) : list (row G) :=
  let df := merge_left (features somerville_blocks) (somerville_record r) in
  let df := df ≫= sjoin_left (features load_somerville_geo) in
  let df := rename_col "NBHD" "Neighborhood" <$> df in
  let df := drop_cols ["geometry"; "Block Code"; "GEOID20"; "index_right"] <$> df in
  select ["Date"; "Crime"; "Macro Crime"; "Neighborhood"] <$> df.

Definition load_somerville_crime : DataFrame G :=
  SOMERVILLE_CRIME_CSV env ≫= somerville_rows.

(** ** The bundles *)

Definition get_cambridge_bundle : option (Bundle G) :=
  c ← load_cambridge_crime;
  Some (mkbundle c load_cambridge_geo (kmap Some (CAMBRIDGE_POP_2020 env)) 13 "2020").

Definition get_boston_bundle : option (Bundle G) :=
  c ← load_boston_crime;
  p ← load_boston_population env;
  Some (mkbundle c load_boston_geo (kmap Some (p : gmap string Q)) 12 "2019").

Definition get_somerville_bundle : option (Bundle G) :=
  let geo_df := load_somerville_geo in
  let population :=
    _build_area_weighted_population geo_df (SOMERVILLE_TOTAL_POP_2022 env) in
  Some (mkbundle load_somerville_crime geo_df population 13 "2022 (area-weighted)").

(** [pd.concat(frames, ignore_index=True)]: the rows of the frames, in
    order; a column a frame lacks is NaN in its rows. *)
Definition concat {A} (frames : list (list A)) : list A := mjoin frames.

Definition get_all_metro_bundle : option (Bundle G) :=
  cambridge ← get_cambridge_bundle;
  boston ← get_boston_bundle;
  somerville ← get_somerville_bundle;
  let crime_data := concat [crime cambridge; crime boston; crime somerville] in
  let geo_df :=
    mkgeo (crs (geo cambridge))
      (concat [features (assign_attr "City" (λ _, Some "Cambridge") (geo cambridge));
               features (assign_attr "City" (λ _, Some "Boston") (geo boston));
               features (assign_attr "City" (λ _, Some "Somerville") (geo somerville))]) in
  let population :=
    population somerville ∪ (population boston ∪ population cambridge) in
  Some (mkbundle crime_data geo_df population (23 # 2) "2020, 2019, 2022").

Definition get_bundle (municipality : string) : option (Bundle G) :=
  if bool_decide (municipality = "Cambridge") then get_cambridge_bundle
  else if bool_decide (municipality = "Boston") then get_boston_bundle
  else if bool_decide (municipality = "Somerville") then get_somerville_bundle
  else get_all_metro_bundle.

End Loaders.

(** ** Quantities the claims speak of *)

Section Regions.
Context {G : Type} `{!Geometry G}.
Implicit Types (geo_df : GeoDataFrame G) (f : feature G) (P : Z).

(** The area of a region after projection to EPSG:26986. *)
Definition projected_area geo_df f : Q :=
  area (reproject (crs geo_df) "EPSG:26986" (geometry f)).

Definition total_projected_area geo_df : Q :=
  Qsum (projected_area geo_df <$> features geo_df).

(** The [NBHD] column. *)
Definition region_names geo_df : list (option string) :=
  (λ f, attrs f !! "NBHD") <$> features geo_df.

(** What the claim promises each region. *)
Definition area_share geo_df f P : Q :=
  (projected_area geo_df f / total_projected_area geo_df * inject_Z P)%Q.

End Regions.

(** The fields of an emitted crime record. *)

Definition crime_label {G} (o : row G) : option string := text (o !! "Crime").
Definition macro_category {G} (o : row G) : option string := text (o !! "Macro Crime").
Definition neighborhood {G} (o : row G) : option string := text (o !! "Neighborhood").
Definition record_date {G} (o : row G) : option date := the_date (o !! "Date").

(** One field of every record of a loaded table. *)
Definition column {G A} (field : row G → A) (df : option (DataFrame G)) : option (list A) :=
  match df with
  | Some rows => Some (map field rows)
  | None => None
  end.

Section Joins.
Context {G : Type} `{!Geometry G} (env : Env G).
Implicit Types (r : text_row) (x : row G) (nb : option string).

(** The census blocks whose identifier equals the normalised block code
    of a crime row. *)
Definition matching_blocks r : list (feature G) :=
  filter (λ b, attrs b !! "GEOID20" = text (somerville_record env r !! "Block Code"))
         (features (somerville_blocks env)).

(** The neighborhood polygons that a geometry intersects. *)
Definition intersecting_neighborhoods (g : G) : list (feature G) :=
  filter (λ p, intersects g (geometry p) = true) (features (load_somerville_geo env)).

(** The neighborhood polygons that contain a geometry. *)
Definition containing_neighborhoods (g : G) : list (feature G) :=
  filter (λ p, within g (geometry p) = true) (features (load_somerville_geo env)).

(** The record emitted for a crime row once its neighborhood is known. *)
Definition somerville_emitted r nb : row G :=
  set_col "Neighborhood" (Str <$> nb)
    (select ["Date"; "Crime"; "Macro Crime"] (somerville_record env r)).

(** The neighborhoods the joins find for a crime row: one per matching
    block and intersecting polygon, a null one where a join finds nothing. *)
Definition somerville_neighborhoods r : list (option string) :=
  match matching_blocks r with
  | [] => [None]
  | bs =>
      bs ≫= λ b,
        match intersecting_neighborhoods (geometry b) with
        | [] => [None]
        | ps => (λ p, attrs p !! "NBHD") <$> ps
        end
  end.

(** The last three statements of the loader, on one row. *)
Definition somerville_finish x : row G :=
  select ["Date"; "Crime"; "Macro Crime"; "Neighborhood"]
    (drop_cols ["geometry"; "Block Code"; "GEOID20"; "index_right"]
       (rename_col "NBHD" "Neighborhood" x)).

(** The neighborhoods the spatial join finds for an optional geometry. *)
Definition joined_neighborhoods (og : option G) : list (option string) :=
  match og with
  | Some g =>
      match intersecting_neighborhoods g with
      | [] => [None]
      | ps => (λ p, attrs p !! "NBHD") <$> ps
      end
  | None => [None]
  end.


End Joins.

(** ** A planar instance of the geometry interface

    Closed axis-parallel rectangles with integer corners, all coordinate
    reference systems being the same plane.  It is used to run the loaders
    on concrete inputs. *)

Record rect := mkrect { x0 : Z; y0 : Z; x1 : Z; y1 : Z }.

Definition rect_intersects (a b : rect) : bool :=
  ((x0 a <=? x1 b) && (x0 b <=? x1 a) && (y0 a <=? y1 b) && (y0 b <=? y1 a))%Z.

Definition rect_within (a b : rect) : bool :=
  ((x0 b <=? x0 a) && (x1 a <=? x1 b) && (y0 b <=? y0 a) && (y1 a <=? y1 b))%Z.

Definition rect_area (a : rect) : Q := inject_Z ((x1 a - x0 a) * (y1 a - y0 a)).

#[export] Instance rect_geometry : Geometry rect := {|
  intersects := rect_intersects;
  within := rect_within;
  area := rect_area;
  reproject := λ _ _ g, g
|}.

(** A date reader for the [MM/DD/YYYY] layout: the empty string is NaT,
    any other text raises. *)
Definition digit (c : ascii) : option Z :=
  let n := Ascii.N_of_ascii c in
  if ((48 <=? n) && (n <=? 57))%N then Some (Z.of_N n - 48)%Z else None.

Definition two_digits (a b : ascii) : option Z :=
  x ← digit a; y ← digit b; Some (10 * x + y)%Z.

Definition parse_mdy (s : string) : option parsed :=
  match PyStr.to_list s with
  | [] => Some NaT
  | [m1; m2; s1; d1; d2; s2; c1; c2; c3; c4] =>
      if bool_decide (s1 = "/"%char ∧ s2 = "/"%char) then
        m ← two_digits m1 m2;
        d ← two_digits d1 d2;
        hi ← two_digits c1 c2;
        lo ← two_digits c3 c4;
        if ((1 <=? m) && (m <=? 12) && (1 <=? d) && (d <=? 31))%Z
        then Some (Timestamp (mkdate (100 * hi + lo) m d))
        else None
      else None
  | _ => None
  end.

Definition empty_geo : GeoDataFrame rect := mkgeo "EPSG:4326" [].

(** ** Sample region sets *)

(** Areas 10, 20 and 70 under three distinct names. *)
Definition three_regions : GeoDataFrame rect :=
  mkgeo "EPSG:4326"
    [mkfeature {[ "NBHD" := "East" ]} (mkrect 0 0 10 1);
     mkfeature {[ "NBHD" := "West" ]} (mkrect 0 1 20 2);
     mkfeature {[ "NBHD" := "Hill" ]} (mkrect 0 2 70 3)].

(** Two regions of areas 1 and 3 that carry the same name. *)
Definition shared_name_regions : GeoDataFrame rect :=
  mkgeo "EPSG:4326"
    [mkfeature {[ "NBHD" := "East" ]} (mkrect 0 0 1 1);
     mkfeature {[ "NBHD" := "East" ]} (mkrect 0 1 3 2)].

(** Two degenerate (zero-area) regions under distinct names. *)
Definition flat_regions : GeoDataFrame rect :=
  mkgeo "EPSG:4326"
    [mkfeature {[ "NBHD" := "East" ]} (mkrect 0 0 5 0);
     mkfeature {[ "NBHD" := "West" ]} (mkrect 0 1 5 1)].

(** Two degenerate regions that carry the same name. *)
Definition flat_shared_name_regions : GeoDataFrame rect :=
  mkgeo "EPSG:4326"
    [mkfeature {[ "NBHD" := "East" ]} (mkrect 0 0 5 0);
     mkfeature {[ "NBHD" := "East" ]} (mkrect 0 1 5 1)].

(** ** A small metropolitan data set *)

Definition assault_row : text_row :=
  {[ "Day and Month Reported" := "07/08"; "Year Reported" := "2022";
     "Offense Type" := "simple assault"; "Block Code" := "250173501001.0" ]}.

Definition vandalism_row : text_row :=
  {[ "Year Reported" := "2022";
     "Offense Type" := "Vandalism"; "Block Code" := "250173502002.0" ]}.

Definition unparsed_row : text_row :=
  {[ "Day and Month Reported" := "13/45"; "Year Reported" := "2022";
     "Block Code" := "250173509009.0" ]}.

Definition sample_env : Env rect := {|
  to_datetime := parse_mdy;
  CAMBRIDGE_CRIME_CSV :=
    [ {[ "Crime Date Time" := "01/02/2020 10:30"; "Crime" := "Larceny from MV";
         "Neighborhood" := "Area 4"; "Reporting Area" := "402" ]};
      {[ "Crime Date Time" := "03/04/2020 08:00"; "Crime" := "Hit and Run";
         "Neighborhood" := "Riverside"; "Reporting Area" := "705" ]} ];
  CAMBRIDGE_CRIME_MACROS := {[ "Larceny from MV" := "Property" ]};
  CAMBRIDGE_NEIGHBORHOOD_NAME_MAP := {[ "The Port" := "Area 4" ]};
  CAMBRIDGE_POP_2020 := {[ "Area 4" := 7000%Q; "Riverside" := 12000%Q ]};
  CAMBRIDGE_SHAPEFILE :=
    mkgeo "EPSG:4326"
      [mkfeature {[ "NAME" := "The Port" ]} (mkrect 0 0 2 2);
       mkfeature {[ "NAME" := "Riverside" ]} (mkrect 2 0 4 2)];
  BOSTON_CRIME_CSV :=
    [ {[ "From Date" := "05/06/2019 23:15"; "Crime" := "LARCENY SHOPLIFTING";
         "Neighborhood" := "South Boston Waterfront"; "BPD District" := "C6" ]} ];
  BOSTON_CRIME_MACROS := {[ "Larceny Shoplifting" := "Property" ]};
  BOSTON_NEIGHBORHOOD_NAME_MAP := {[ "South Boston Waterfront" := "Seaport" ]};
  BOSTON_SHAPEFILE :=
    mkgeo "EPSG:4326"
      [mkfeature {[ "blockgr202" := "South Boston Waterfront" ]} (mkrect 10 0 12 2);
       mkfeature {[ "blockgr202" := "Allston" ]} (mkrect 12 0 14 2)];
  load_boston_population := Some {[ "Allston" := 19000%Q; "Seaport" := 4000%Q ]};
  SOMERVILLE_CRIME_CSV :=
    [assault_row; vandalism_row; unparsed_row];
  SOMERVILLE_CRIME_MACROS := {[ "Simple Assault" := "Violent" ]};
  SOMERVILLE_SHAPEFILE :=
    mkgeo "EPSG:4326"
      [mkfeature {[ "NBHD" := "Winter Hill" ]} (mkrect 20 0 23 2);
       mkfeature {[ "NBHD" := "Spring Hill" ]} (mkrect 24 0 25 2)];
  SOMERVILLE_TOTAL_POP_2022 := 80000;
  MA_CENSUS_BLOCKS :=
    mkgeo "EPSG:4326"
      [mkfeature {[ "GEOID20" := "250173501001"; "TOWN" := "SOMERVILLE" ]} (mkrect 21 0 22 1);
       mkfeature {[ "GEOID20" := "250173502002"; "TOWN" := "SOMERVILLE" ]} (mkrect 30 0 31 1);
       mkfeature {[ "GEOID20" := "250173509009"; "TOWN" := "MEDFORD" ]} (mkrect 24 0 25 1)]
|}.

(** Two neighborhoods that share the edge x = 1, and a census block that
    lies inside the western one with its eastern side on that edge. *)
Definition boundary_env : Env rect := {|
  to_datetime := parse_mdy;
  CAMBRIDGE_CRIME_CSV := [];
  CAMBRIDGE_CRIME_MACROS := ∅;
  CAMBRIDGE_NEIGHBORHOOD_NAME_MAP := ∅;
  CAMBRIDGE_POP_2020 := ∅;
  CAMBRIDGE_SHAPEFILE := empty_geo;
  BOSTON_CRIME_CSV := [];
  BOSTON_CRIME_MACROS := ∅;
  BOSTON_NEIGHBORHOOD_NAME_MAP := ∅;
  BOSTON_SHAPEFILE := empty_geo;
  load_boston_population := Some ∅;
  SOMERVILLE_CRIME_CSV := [assault_row];
  SOMERVILLE_CRIME_MACROS := ∅;
  SOMERVILLE_SHAPEFILE :=
    mkgeo "EPSG:4326"
      [mkfeature {[ "NBHD" := "West" ]} (mkrect 0 0 1 2);
       mkfeature {[ "NBHD" := "East" ]} (mkrect 1 0 2 2)];
  SOMERVILLE_TOTAL_POP_2022 := 0;
  MA_CENSUS_BLOCKS :=
    mkgeo "EPSG:4326"
      [mkfeature {[ "GEOID20" := "250173501001"; "TOWN" := "SOMERVILLE" ]}
                 (mkrect 0 0 1 1)]
|}.

(** ** Sample Cambridge tables *)

Definition cambridge_env (csv : list text_row) (macros : gmap string string) : Env rect := {|
  to_datetime := parse_mdy;
  CAMBRIDGE_CRIME_CSV := csv;
  CAMBRIDGE_CRIME_MACROS := macros;
  CAMBRIDGE_NEIGHBORHOOD_NAME_MAP := ∅;
  CAMBRIDGE_POP_2020 := ∅;
  CAMBRIDGE_SHAPEFILE := empty_geo;
  BOSTON_CRIME_CSV := [];
  BOSTON_CRIME_MACROS := ∅;
  BOSTON_NEIGHBORHOOD_NAME_MAP := ∅;
  BOSTON_SHAPEFILE := empty_geo;
  load_boston_population := Some ∅;
  SOMERVILLE_CRIME_CSV := [];
  SOMERVILLE_CRIME_MACROS := ∅;
  SOMERVILLE_SHAPEFILE := empty_geo;
  SOMERVILLE_TOTAL_POP_2022 := 0;
  MA_CENSUS_BLOCKS := empty_geo
|}.

(** A Cambridge table whose label is in upper case, with a category table
    keyed by the title-cased label. *)
Definition upper_case_env : Env rect :=
  cambridge_env
    [ {[ "Crime Date Time" := "01/02/2020 10:30"; "Crime" := "LARCENY";
         "Neighborhood" := "Area 4"; "Reporting Area" := "402" ]} ]
    {[ "Larceny" := "Property" ]}.


(** ** Binary floating point

    The arithmetic of [numpy.float64]: IEEE 754 binary64 with rounding to
    nearest, ties to even, as specified by the standard library's
    [SpecFloat]. *)

(** Powers of two, of either sign of the exponent. *)
Definition pow2 (e : Z) : Q := (2 ^ e)%Q.

Module Float64.

Definition float64 : Type := spec_float.
Definition prec : Z := 53.
Definition emax : Z := 1024.

Definition add : float64 → float64 → float64 := SFadd prec emax.
Definition mul : float64 → float64 → float64 := SFmul prec emax.
Definition div : float64 → float64 → float64 := SFdiv prec emax.

(** [x == y] on floats: false on NaN, true on zeros of either sign. *)
Definition eqb : float64 → float64 → bool := SFeqb.

Definition zero : float64 := S754_zero false.

(** The float nearest to an integer. *)
Definition of_Z (n : Z) : float64 := binary_normalize prec emax n 0 false.

Definition is_finite (x : float64) : bool :=
  match x with
  | S754_zero _ | S754_finite _ _ _ => true
  | _ => false
  end.

Definition is_nan (x : float64) : bool :=
  match x with S754_nan => true | _ => false end.

(** A normal number: its significand has all [prec] digits. *)
Definition is_normal (x : float64) : bool :=
  match x with
  | S754_finite _ m _ => (Z.pos (digits2_pos m) =? prec)%Z
  | _ => false
  end.

(** [float(n)] on a Python integer: OverflowError when the nearest float
    is not finite. *)
Definition float_of_int (n : Z) : option float64 :=
  let x := of_Z n in if is_finite x then Some x else None.

(** The rational a finite float stands for (0 for the others). *)
Definition to_Q (x : float64) : Q :=
  match x with
  | S754_finite s m e =>
      let v := (inject_Z (Z.pos m) * pow2 e)%Q in if s then (- v)%Q else v
  | _ => 0%Q
  end.

End Float64.

Abbreviation float64 := Float64.float64.

(** The numeric libraries under the apportionment: shapely's planar area
    of a geometry and [Series.sum()], both on float64.  The sum skips NaN
    and adds in numpy's pairwise order, which depends on the length of the
    column; it is a parameter here. *)
Record FloatLib (G : Type) := mkfloatlib {
  area64 : G → float64;
  sum64 : list float64 → float64
}.

Arguments area64 {G}.
Arguments sum64 {G}.

Module F64.
Section Apportionment.
Context {G : Type} `{!Geometry G} (lib : FloatLib G).

(** [_build_area_weighted_population] with the arithmetic of float64.
    [None] is the OverflowError of converting a population that is too
    large. *)
Definition _build_area_weighted_population
    (geo_df : GeoDataFrame G) (total_population : Z)
    : option (gmap (option string) float64) :=
  let area_df := to_crs "EPSG:26986" geo_df in
  let areas := (λ f, area64 lib (geometry f)) <$> features area_df in
  let total_area := sum64 lib areas in
  if Float64.eqb total_area Float64.zero then
    to_dict <$>
      mapM (λ name, p ← Float64.float_of_int total_population; Some (Some name, p))
           (unique (dropna ((λ f, attrs f !! "NBHD") <$> features geo_df)))
  else
    p ← Float64.float_of_int total_population;
    Some (to_dict ((λ f, (attrs f !! "NBHD",
                          Float64.mul (Float64.div (area64 lib (geometry f)) total_area) p))
                     <$> features area_df)).

End Apportionment.
End F64.

Section FloatRegions.
Context {G : Type} `{!Geometry G} (lib : FloatLib G).
Implicit Types (geo_df : GeoDataFrame G) (f : feature G).

(** The float64 area of a region after projection to EPSG:26986. *)
Definition projected_area64 geo_df f : float64 :=
  area64 lib (reproject (crs geo_df) "EPSG:26986" (geometry f)).

(** The computed total area, and the exact sum of the computed areas. *)
Definition total_area64 geo_df : float64 :=
  sum64 lib (projected_area64 geo_df <$> features geo_df).

Definition exact_total_area geo_df : Q :=
  Qsum ((λ f, Float64.to_Q (projected_area64 geo_df f)) <$> features geo_df).

(** The computed quotient and value of a region. *)
Definition area_quotient64 geo_df f : float64 :=
  Float64.div (projected_area64 geo_df f) (total_area64 geo_df).

Definition area_share64 geo_df f (p : float64) : float64 :=
  Float64.mul (area_quotient64 geo_df f) p.

End FloatRegions.

(** A finite float within relative error [u] of an exact result. *)
Definition accurate (u exact : Q) (x : float64) : Prop :=
  Float64.is_finite x = true
  ∧ (Qabs (Float64.to_Q x - exact) <= u * Qabs exact)%Q.

(** The relative error allowed to one operation below: two units in the
    last place of a normal number. *)
Definition rounding_tolerance : Q := 1 # (2 ^ 51 - 1).

(** The exact sum of the values of a table of floats. *)
Definition float_values_sum {K} `{Countable K} (m : gmap K float64) : Q :=
  dict_values_sum (Float64.to_Q <$> m).

(** Rectangles: the area is the rounded product of the rounded sides, the
    sum adds from left to right, as numpy does on fewer than eight
    values. *)
Definition rect_area64 (a : rect) : float64 :=
  Float64.mul (Float64.of_Z (x1 a - x0 a)) (Float64.of_Z (y1 a - y0 a)).

Definition sequential_sum (l : list float64) : float64 :=
  foldl Float64.add Float64.zero (filter (λ x, Float64.is_nan x = false) l).

Definition rect_float_lib : FloatLib rect := mkfloatlib rect rect_area64 sequential_sum.

(** Three unit squares. *)
Definition unit_squares : GeoDataFrame rect :=
  mkgeo "EPSG:4326"
    [mkfeature {[ "NBHD" := "East" ]} (mkrect 0 0 1 1);
     mkfeature {[ "NBHD" := "West" ]} (mkrect 1 0 2 1);
     mkfeature {[ "NBHD" := "Hill" ]} (mkrect 2 0 3 1)].

(** Two regions of area 2^1023 each: their sum is beyond the largest
    float. *)
Definition huge_regions : GeoDataFrame rect :=
  mkgeo "EPSG:4326"
    [mkfeature {[ "NBHD" := "East" ]} (mkrect 0 0 (2 ^ 512) (2 ^ 511));
     mkfeature {[ "NBHD" := "West" ]} (mkrect 0 (2 ^ 511) (2 ^ 512) (2 ^ 512))].

(** The table computed for the three unit squares and a population of
    100. *)
Definition unit_squares_population : gmap (option string) float64 :=
  default ∅ (F64._build_area_weighted_population rect_float_lib unit_squares 100).

(** ** More sample data *)


(** The Somerville bundle of the sample data set. *)
Definition sample_somerville : Bundle rect :=
  default (mkbundle [] empty_geo ∅ 0%Q "") (get_somerville_bundle sample_env).

(** ** Notions used by the further properties *)

(** How a loaded region relates to the region of the shapefile it comes
    from: every attribute but the one the loader assigns is kept, and the
    geometry is reprojected exactly when the file is not in EPSG:4326. *)
Definition loaded_from {G} `{!Geometry G} (source_crs assigned : string)
    (f o : feature G) : Prop :=
  (∀ c, c ≠ assigned → attrs o !! c = attrs f !! c)
  ∧ geometry o = if bool_decide (source_crs = "EPSG:4326") then geometry f
                 else reproject source_crs "EPSG:4326" (geometry f).

(** The all-metro bundle of the sample data set. *)
Definition sample_metro : Bundle rect :=
  default (mkbundle [] empty_geo ∅ 0%Q "") (get_all_metro_bundle sample_env).

(** A Cambridge table whose second row has a date that does not parse. *)
Definition malformed_date_env : Env rect :=
  cambridge_env
    [ {[ "Crime Date Time" := "01/02/2020 10:30"; "Crime" := "Larceny" ]};
      {[ "Crime Date Time" := "yesterday 11:45"; "Crime" := "Larceny" ]} ]
    ∅.

(** The date cell that [pd.to_datetime] with [errors="raise"] gives for a
    date-time cell cut at its first space; no cell at all when the parser
    rejects the text. *)
Definition date_of_cell {G} (env : Env G) (v : option string)
    (d : option (cell G)) : Prop :=
  match v with
  | None => d = None
  | Some s =>
      match to_datetime env (PyStr.split_first s) with
      | Some (Timestamp t) => d = Some (Date t)
      | Some NaT => d = None
      | None => False
      end
  end.

(** * Properties *)

(** ** Python string methods on examples *)

Example title_upper : PyStr.title "LARCENY FROM MV" = "Larceny From Mv".
Proof. reflexivity. Qed.
Example title_apostrophe : PyStr.title "they're b&e 3rd" = "They'Re B&E 3Rd".
Proof. reflexivity. Qed.
Example strip_blank : PyStr.strip "  	 " = "".
Proof. reflexivity. Qed.
Example strip_inner : PyStr.strip "  03/15 " = "03/15".
Proof. reflexivity. Qed.
Example rstrip_ex : PyStr.rstrip ".0" "1500.0" = "15".
Proof. reflexivity. Qed.
Example split_first_ex : PyStr.split_first "01/02/2020 10:30" = "01/02/2020".
Proof. reflexivity. Qed.

(** The rendering of a missing value that the model follows. *)
Example astype_str_missing : astype_str None = "nan" ∧ astype_str (Some "2022") = "2022".
Proof. by split. Qed.

(** ** Dictionaries built by item assignment *)

Section Dicts.
Context {K : Type} `{Countable K} {V : Type}.
Implicit Types (items : list (K * V)) (k : K) (v : V).

Lemma to_dict_snoc items k v :
  to_dict (items ++ [(k, v)]) = <[k:=v]> (to_dict items).
Proof. unfold to_dict. by rewrite foldl_snoc. Qed.

Lemma to_dict_lookup_None items k :
  k ∉ items.*1 → to_dict items !! k = None.
Proof.
  induction items as [|[k' v'] items IH] using rev_ind; intros Hk.
  - apply lookup_empty.
  - rewrite to_dict_snoc. rewrite fmap_app in Hk. cbn in Hk.
    rewrite lookup_insert_ne; [apply IH|]; set_solver.
Qed.

Lemma to_dict_is_Some items k :
  is_Some (to_dict items !! k) ↔ k ∈ items.*1.
Proof.
  induction items as [|[k' v'] items IH] using rev_ind.
  - change (to_dict (@nil (K * V))) with (∅ : gmap K V). rewrite lookup_empty.
    split; [by intros [? ?]|by intros ?%elem_of_nil].
  - rewrite to_dict_snoc, fmap_app, elem_of_app. cbn.
    destruct (decide (k' = k)) as [->|Hne].
    + rewrite lookup_insert_eq. split; [set_solver|eauto].
    + rewrite lookup_insert_ne by done. rewrite IH. set_solver.
Qed.

(** With pairwise distinct keys every item is found under its key. *)
Lemma to_dict_lookup_NoDup items k v :
  NoDup items.*1 → (k, v) ∈ items → to_dict items !! k = Some v.
Proof.
  induction items as [|[k' v'] items IH] using rev_ind; intros Hnd Hin.
  - by apply elem_of_nil in Hin.
  - rewrite to_dict_snoc. rewrite fmap_app in Hnd. cbn in Hnd.
    apply NoDup_app in Hnd as (Hnd & Hfresh & _).
    apply elem_of_app in Hin as [Hin|Hin].
    + rewrite lookup_insert_ne; [by apply IH|].
      intros ->. apply (Hfresh k); [|set_solver].
      apply list_elem_of_fmap. by exists (k, v).
    + apply list_elem_of_singleton in Hin. simplify_eq.
      apply lookup_insert_eq.
Qed.

(** On a repeated key the last item is the one kept. *)
Lemma to_dict_lookup_last items k v :
  to_dict (items ++ [(k, v)]) !! k = Some v.
Proof. rewrite to_dict_snoc. apply lookup_insert_eq. Qed.

Lemma to_dict_size_NoDup items :
  NoDup items.*1 → size (to_dict items) = length items.
Proof.
  induction items as [|[k' v'] items IH] using rev_ind; intros Hnd.
  - apply map_size_empty.
  - rewrite to_dict_snoc, length_app. cbn.
    rewrite fmap_app in Hnd. cbn in Hnd.
    apply NoDup_app in Hnd as (Hnd & Hfresh & _).
    assert (to_dict items !! k' = None) as Hk'.
    { apply to_dict_lookup_None. intros ?. eapply Hfresh; [done|set_solver]. }
    rewrite map_size_insert_None, IH by done. lia.
Qed.

End Dicts.

(** ** Sums of rationals *)

Lemma Qsum_app (l k : list Q) : (Qsum (l ++ k) == Qsum l + Qsum k)%Q.
Proof.
  induction l as [|a l IH]; cbn.
  - by rewrite Qplus_0_l.
  - rewrite IH. apply Qplus_assoc.
Qed.

Lemma Qsum_scale (c : Q) (l : list Q) :
  (Qsum ((λ a, a * c) <$> l) == Qsum l * c)%Q.
Proof.
  induction l as [|a l IH]; cbn.
  - by rewrite Qmult_0_l.
  - rewrite IH. by rewrite Qmult_plus_distr_l.
Qed.

Lemma Qsum_const (c : Q) {A} (l : list A) :
  (Qsum ((λ _, c) <$> l) == inject_Z (Z.of_nat (length l)) * c)%Q.
Proof.
  induction l as [|a l IH].
  - cbn. by rewrite Qmult_0_l.
  - cbn [fmap list_fmap Qsum foldr length]. fold (Qsum ((λ _, c) <$> l)).
    rewrite IH, Nat2Z.inj_succ. unfold Z.succ. rewrite inject_Z_plus. ring.
Qed.

Section DictSums.
Context {K : Type} `{Countable K}.

Lemma dict_values_sum_insert (m : gmap K Q) (k : K) (v : Q) :
  m !! k = None → (dict_values_sum (<[k:=v]> m) == v + dict_values_sum m)%Q.
Proof.
  intros Hk. unfold dict_values_sum.
  apply (map_fold_insert Qeq (λ _ v acc, (v + acc)%Q)); [| |done].
  - intros _ z a b Hab. by rewrite Hab.
  - intros _ _ z1 z2 y _ _ _. ring.
Qed.

(** With pairwise distinct keys no item is overwritten, and the values of
    the dictionary add up to the values of the items. *)
Lemma dict_values_sum_to_dict (items : list (K * Q)) :
  NoDup items.*1 → (dict_values_sum (to_dict items) == Qsum items.*2)%Q.
Proof.
  induction items as [|[k v] items IH] using rev_ind; intros Hnd.
  - reflexivity.
  - rewrite to_dict_snoc, fmap_app. rewrite fmap_app in Hnd. cbn in Hnd.
    apply NoDup_app in Hnd as (Hnd & Hfresh & _).
    assert (to_dict items !! k = None) as Hk.
    { apply to_dict_lookup_None. intros ?. eapply Hfresh; [done|set_solver]. }
    rewrite dict_values_sum_insert, IH, Qsum_app by done.
    cbn. ring.
Qed.

End DictSums.

(** ** Area-weighted apportionment *)

Section Apportionment.
Context {G : Type} `{!Geometry G}.
Implicit Types (geo_df : GeoDataFrame G) (f : feature G) (P : Z).

Lemma build_total_area geo_df :
  Qsum ((λ f, area (geometry f)) <$> features (to_crs "EPSG:26986" geo_df))
  = total_projected_area geo_df.
Proof.
  unfold total_projected_area, to_crs. cbn [features].
  by rewrite <-list_fmap_compose.
Qed.

Lemma build_nonzero geo_df P :
  ¬ (total_projected_area geo_df == 0)%Q →
  _build_area_weighted_population geo_df P
  = to_dict ((λ f, (attrs f !! "NBHD", area_share geo_df f P)) <$> features geo_df).
Proof.
  intros Hne. unfold _build_area_weighted_population. cbv zeta.
  rewrite build_total_area.
  destruct (Qeq_bool _ 0) eqn:Hz; [by apply Qeq_bool_iff in Hz|].
  unfold to_crs. cbn [features]. by rewrite <-list_fmap_compose.
Qed.

Lemma build_zero geo_df P :
  (total_projected_area geo_df == 0)%Q →
  _build_area_weighted_population geo_df P
  = to_dict ((λ name, (Some name, inject_Z P)) <$> unique (dropna (region_names geo_df))).
Proof.
  intros Hz. unfold _build_area_weighted_population. cbv zeta.
  rewrite build_total_area. apply Qeq_bool_iff in Hz. by rewrite Hz.
Qed.

Lemma area_shares_sum geo_df P :
  ¬ (total_projected_area geo_df == 0)%Q →
  (Qsum ((λ f, area_share geo_df f P) <$> features geo_df) == inject_Z P)%Q.
Proof.
  intros Hne. unfold area_share.
  transitivity (Qsum ((λ a, a * (/ total_projected_area geo_df * inject_Z P))
                        <$> (projected_area geo_df <$> features geo_df)))%Q.
  - rewrite <-list_fmap_compose.
    generalize (total_projected_area geo_df) as T. intros T.
    induction (features geo_df) as [|f l IH]; [reflexivity|].
    rewrite !fmap_cons. unfold Qsum in *. rewrite !foldr_cons, IH.
    unfold compose, Qdiv. ring.
  - rewrite Qsum_scale. fold (total_projected_area geo_df). by field.
Qed.

End Apportionment.

Lemma elem_of_unique {A} `{EqDecision A} (l : list A) (x : A) :
  x ∈ unique l ↔ x ∈ l.
Proof.
  induction l as [|a l IH]; [done|]. cbn.
  rewrite !elem_of_cons, list_elem_of_filter, IH.
  destruct (decide (x = a)); naive_solver.
Qed.

Lemma NoDup_unique {A} `{EqDecision A} (l : list A) : NoDup (unique l).
Proof.
  induction l as [|a l IH]; cbn; [constructor|].
  constructor.
  - rewrite list_elem_of_filter. naive_solver.
  - by apply NoDup_filter.
Qed.

Lemma filter_id {A} (P : A → Prop) `{∀ x, Decision (P x)} (l : list A) :
  Forall P l → filter P l = l.
Proof.
  induction 1 as [|a l Ha Hl IH]; [done|].
  by rewrite filter_cons_True, IH.
Qed.

Lemma unique_NoDup {A} `{EqDecision A} (l : list A) : NoDup l → unique l = l.
Proof.
  induction 1 as [|a l Hin Hnd IH]; [done|]. cbn. rewrite IH. f_equal.
  apply filter_id, Forall_forall. by intros y Hy ->.
Qed.

Lemma dropna_all_present {A} (l : list (option A)) :
  Forall is_Some l → Some <$> dropna l = l.
Proof.
  induction 1 as [|o l [a ->] Hl IH]; [done|].
  cbn. f_equal. apply IH.
Qed.

Lemma elem_of_dropna {A} (l : list (option A)) (a : A) :
  a ∈ dropna l ↔ Some a ∈ l.
Proof.
  unfold dropna. rewrite list_elem_of_omap. split.
  - intros (o & Ho & Heq). by simplify_eq/=.
  - intros Ho. by exists (Some a).
Qed.

Section ApportionmentClaims.
Context {G : Type} `{!Geometry G}.
Implicit Types (geo_df : GeoDataFrame G) (f : feature G) (P : Z).

Lemma region_items_keys geo_df P :
  ((λ f, (attrs f !! "NBHD", area_share geo_df f P)) <$> features geo_df).*1
  = region_names geo_df.
Proof. unfold region_names. by rewrite <-list_fmap_compose. Qed.

Lemma fallback_items_keys (names : list string) (q : Q) :
  ((λ name, (Some name, q)) <$> names).*1 = Some <$> names.
Proof. by rewrite <-list_fmap_compose. Qed.

Lemma fallback_items_values (names : list string) (q : Q) :
  ((λ name : string, (Some name, q)) <$> names).*2 = (λ _, q) <$> names.
Proof. by rewrite <-list_fmap_compose. Qed.

(** C2 (as amended): when the total projected area is exactly zero, every
    region with a non-null name is assigned the full total population [P],
    nothing else is in the mapping, and the values sum to [D] × [P] for
    [D] the number of entries, i.e. of distinct non-null region names;
    [D] is the number [N] of regions when their names are non-null and
    pairwise distinct.  The function is total: nothing is raised. *)
Theorem zero_area_population_fallback geo_df P :
  (total_projected_area geo_df == 0)%Q →
  (∀ name, Some name ∈ region_names geo_df →
     _build_area_weighted_population geo_df P !! Some name = Some (inject_Z P))
  ∧ (∀ k, is_Some (_build_area_weighted_population geo_df P !! k) →
       k ≠ None ∧ k ∈ region_names geo_df)
  ∧ (dict_values_sum (_build_area_weighted_population geo_df P)
     == inject_Z (Z.of_nat (size (_build_area_weighted_population geo_df P)))
        * inject_Z P)%Q
  ∧ (NoDup (region_names geo_df) → Forall is_Some (region_names geo_df) →
     size (_build_area_weighted_population geo_df P) = length (features geo_df)).
Proof.
  intros Hz. rewrite build_zero by done.
  set (names := unique (dropna (region_names geo_df))).
  assert (NoDup ((λ name, (Some name, inject_Z P)) <$> names).*1) as Hkeys.
  { rewrite fallback_items_keys. apply NoDup_fmap; [apply _|apply NoDup_unique]. }
  split; [|split; [|split]].
  - intros name Hin. apply to_dict_lookup_NoDup; [done|].
    apply list_elem_of_fmap. exists name. split; [done|].
    by apply elem_of_unique, elem_of_dropna.
  - intros k Hk. apply to_dict_is_Some in Hk.
    rewrite fallback_items_keys in Hk.
    apply list_elem_of_fmap in Hk as (name & -> & Hin).
    split; [done|]. by apply elem_of_unique, elem_of_dropna in Hin.
  - rewrite dict_values_sum_to_dict, to_dict_size_NoDup by done.
    rewrite fallback_items_values, Qsum_const. by rewrite length_fmap.
  - intros Hnd Hall. rewrite to_dict_size_NoDup by done.
    rewrite length_fmap. subst names.
    pose proof (dropna_all_present _ Hall) as Hdrop.
    rewrite unique_NoDup.
    + rewrite <-(length_fmap Some), Hdrop. unfold region_names. by rewrite length_fmap.
    + apply (NoDup_fmap Some). by rewrite Hdrop.
Qed.

End ApportionmentClaims.

(** The spec's scenario: areas 10, 20, 70 and a population of 2000. *)
Example apportionment_scenario :
  Qred <$> _build_area_weighted_population three_regions 2000
  = {[ Some "East" := 200%Q; Some "West" := 400%Q; Some "Hill" := 1400%Q ]}.
Proof. vm_compute. reflexivity. Qed.

(** C2, on two degenerate regions with distinct names: the total area is
    zero and the mapping has one entry per region. *)
Lemma zero_area_population_flat_regions :
  (total_projected_area flat_regions == 0)%Q
  ∧ size (_build_area_weighted_population flat_regions 5)
    = length (features flat_regions)
  ∧ (dict_values_sum (_build_area_weighted_population flat_regions 5)
     == inject_Z (Z.of_nat (size (_build_area_weighted_population flat_regions 5)))
        * inject_Z 5)%Q.
Proof.
  assert (total_projected_area flat_regions == 0)%Q as Hz by reflexivity.
  assert (NoDup (region_names flat_regions)) as Hnd
    by (apply (bool_decide_unpack _); vm_compute; exact I).
  assert (Forall is_Some (region_names flat_regions)) as Hall
    by (repeat constructor; eexists; reflexivity).
  pose proof (zero_area_population_fallback flat_regions 5 Hz) as (_ & _ & Hsum & Hsize).
  split; [exact Hz|split; [exact (Hsize Hnd Hall)|exact Hsum]].
Defined.

(** C2 as stated fails when two regions share a name: both have zero
    area, the mapping has the single entry of their common name, and its
    values sum to 5, not to 2 × 5. *)
Lemma zero_area_population_shared_name :
  (total_projected_area flat_shared_name_regions == 0)%Q
  ∧ length (features flat_shared_name_regions) = 2
  ∧ _build_area_weighted_population flat_shared_name_regions 5
    = {[ Some "East" := inject_Z 5 ]}
  ∧ ¬ (dict_values_sum (_build_area_weighted_population flat_shared_name_regions 5)
       == inject_Z 2 * inject_Z 5)%Q.
Proof.
  split; [reflexivity|split; [reflexivity|split; [by vm_compute|]]].
  intros Hsum. vm_compute in Hsum. discriminate Hsum.
Qed.

(** ** Rounding in float64 *)

Lemma pow2_pos (e : Z) : (0 < pow2 e)%Q.
Proof. apply Qpower_0_lt. reflexivity. Qed.

Lemma pow2_add (a b : Z) : (pow2 (a + b) == pow2 a * pow2 b)%Q.
Proof. apply Qpower_plus. discriminate. Qed.

Lemma pow2_of_Z (n : Z) : (0 ≤ n)%Z → (pow2 n == inject_Z (2 ^ n))%Q.
Proof. intros Hn. unfold pow2. by rewrite Zpower_Qpower. Qed.

Lemma pow2_le (a b : Z) : (a ≤ b)%Z → (pow2 a <= pow2 b)%Q.
Proof. intros Hab. apply Qpower_le_compat_l; [done|]. discriminate. Qed.

(** *** Shifting a significand to the right *)

Lemma shr_1_m (mrs : shr_record) :
  (0 ≤ shr_m mrs)%Z → shr_m (shr_1 mrs) = (shr_m mrs / 2)%Z.
Proof.
  destruct mrs as [m r s]. cbn [shr_m]. intros Hm.
  rewrite <-Z.div2_div. by destruct m as [|[p|p|]|p].
Qed.

Lemma iter_shr_m (p : positive) (mrs : shr_record) :
  (0 ≤ shr_m mrs)%Z →
  shr_m (SpecFloat.iter_pos shr_1 p mrs) = (shr_m mrs / 2 ^ Z.pos p)%Z.
Proof.
  revert mrs. induction p as [p IH|p IH|]; intros mrs Hm; cbn [SpecFloat.iter_pos].
  - assert (0 ≤ shr_m (shr_1 mrs))%Z as H1.
    { rewrite shr_1_m by done. by apply Z.div_pos. }
    assert (0 ≤ shr_m (SpecFloat.iter_pos shr_1 p (shr_1 mrs)))%Z as H2.
    { rewrite IH by done. apply Z.div_pos; [done|]. by apply Z.pow_pos_nonneg. }
    rewrite IH, IH, shr_1_m by done.
    rewrite !Z.div_div by (try apply Z.pow_pos_nonneg; lia).
    f_equal. rewrite Pos2Z.inj_xI, Z.pow_add_r, Z.pow_mul_r by lia.
    change (2 ^ 2)%Z with 4%Z. rewrite Z.pow_1_r.
    replace (4 ^ Z.pos p)%Z with (2 ^ Z.pos p * 2 ^ Z.pos p)%Z; [lia|].
    rewrite <-Z.pow_add_r by lia. replace (Z.pos p + Z.pos p)%Z with (2 * Z.pos p)%Z by lia.
    by rewrite Z.pow_mul_r by lia.
  - assert (0 ≤ shr_m (SpecFloat.iter_pos shr_1 p mrs))%Z as H2.
    { rewrite IH by done. apply Z.div_pos; [done|]. by apply Z.pow_pos_nonneg. }
    rewrite IH, IH by done.
    rewrite !Z.div_div by (try apply Z.pow_pos_nonneg; lia).
    f_equal. rewrite Pos2Z.inj_xO, <-Z.pow_add_r by lia. f_equal. lia.
  - rewrite shr_1_m by done. by rewrite Z.pow_1_r.
Qed.

Lemma shr_spec (mrs : shr_record) (e n : Z) (mrs' : shr_record) (e' : Z) :
  (0 ≤ shr_m mrs)%Z →
  shr mrs e n = (mrs', e') →
  ∃ k, (0 ≤ k)%Z ∧ e' = (e + k)%Z ∧ shr_m mrs' = (shr_m mrs / 2 ^ k)%Z.
Proof.
  intros Hm. unfold shr. destruct n as [|p|p]; intros [= <- <-].
  - exists 0%Z. rewrite Z.add_0_r, Z.pow_0_r, Z.div_1_r. done.
  - exists (Z.pos p). split; [done|]. split; [done|]. by apply iter_shr_m.
  - exists 0%Z. rewrite Z.add_0_r, Z.pow_0_r, Z.div_1_r. done.
Qed.

Lemma shr_m_of_loc (m : Z) (l : location) : shr_m (shr_record_of_loc m l) = m.
Proof. by destruct l as [|[]]. Qed.

(** Dropping [k] low digits keeps a value between the significand and its
    successor. *)
Lemma floor_shift (m k e : Z) (X : Q) :
  (0 ≤ m)%Z → (0 ≤ k)%Z →
  (inject_Z m * pow2 e <= X)%Q → (X < inject_Z (m + 1) * pow2 e)%Q →
  (inject_Z (m / 2 ^ k) * pow2 (e + k) <= X)%Q
  ∧ (X < inject_Z (m / 2 ^ k + 1) * pow2 (e + k))%Q.
Proof.
  intros Hm Hk Hlo Hhi.
  assert (0 < 2 ^ k)%Z as Hpow by (by apply Z.pow_pos_nonneg).
  pose proof (Z.mul_div_le m (2 ^ k) Hpow) as Hle.
  pose proof (Z.mul_succ_div_gt m (2 ^ k) Hpow) as Hgt.
  pose proof (pow2_pos e) as He.
  rewrite pow2_add, (pow2_of_Z k) by done.
  split.
  - apply Qle_trans with (inject_Z m * pow2 e)%Q; [|done].
    rewrite (Qmult_comm (pow2 e)), Qmult_assoc, <-inject_Z_mult.
    apply Qmult_le_compat_r; [|lra]. rewrite <-Zle_Qle. lia.
  - apply Qlt_le_trans with (inject_Z (m + 1) * pow2 e)%Q; [done|].
    rewrite (Qmult_comm (pow2 e)), Qmult_assoc, <-inject_Z_mult.
    apply Qmult_le_compat_r; [|lra]. rewrite <-Zle_Qle. lia.
Qed.

Lemma round_nearest_even_cases (m : Z) (l : location) :
  round_nearest_even m l = m ∨ round_nearest_even m l = (m + 1)%Z.
Proof. destruct l as [|[]]; cbn; try (by left); [destruct (Z.even m)|]; auto. Qed.

(** The result of rounding is within two units of its last place. *)
Lemma binary_round_aux_bounds (prec emax : Z) (s : bool) (M E : Z) (l : location)
    (s' : bool) (m : positive) (e : Z) (X : Q) :
  (0 ≤ M)%Z →
  (inject_Z M * pow2 E <= X)%Q → (X < inject_Z (M + 1) * pow2 E)%Q →
  binary_round_aux prec emax s M E l = S754_finite s' m e →
  s' = s ∧ (Qabs (inject_Z (Z.pos m) * pow2 e - X) <= 2 * pow2 e)%Q.
Proof.
  intros HM Hlo Hhi. unfold binary_round_aux, shr_fexp.
  destruct (shr (shr_record_of_loc M l) E _) as [mrs1 e1] eqn:H1.
  apply shr_spec in H1 as (k1 & Hk1 & -> & Hm1); [|by rewrite shr_m_of_loc].
  rewrite shr_m_of_loc in Hm1.
  set (mr := round_nearest_even (shr_m mrs1) (loc_of_shr_record mrs1)).
  destruct (shr (shr_record_of_loc mr loc_Exact) (E + k1) _) as [mrs2 e2] eqn:H2.
  assert (0 ≤ shr_m mrs1)%Z as Hm1pos.
  { rewrite Hm1. apply Z.div_pos; [done|]. by apply Z.pow_pos_nonneg. }
  assert (0 ≤ mr)%Z as Hmr.
  { destruct (round_nearest_even_cases (shr_m mrs1) (loc_of_shr_record mrs1))
      as [Hr|Hr]; unfold mr; rewrite Hr; lia. }
  apply shr_spec in H2 as (k2 & Hk2 & -> & Hm2); [|by rewrite shr_m_of_loc].
  rewrite shr_m_of_loc in Hm2.
  destruct (shr_m mrs2) as [|m2|m2] eqn:Hres; [done| |done].
  destruct (Z.leb _ _); [|done]. intros [= <- <- <-]. split; [done|].
  destruct (floor_shift M k1 E X HM Hk1 Hlo Hhi) as [B1 B1'].
  rewrite <-Hm1 in B1, B1'.
  assert (inject_Z mr * pow2 (E + k1) <= inject_Z mr * pow2 (E + k1))%Q as Hrefl
    by apply Qle_refl.
  assert (inject_Z mr * pow2 (E + k1) < inject_Z (mr + 1) * pow2 (E + k1))%Q as Hsucc.
  { rewrite inject_Z_plus. pose proof (pow2_pos (E + k1)). change (inject_Z 1) with 1%Q. lra. }
  destruct (floor_shift mr k2 (E + k1) _ Hmr Hk2 Hrefl Hsucc) as [B2 B2'].
  rewrite <-Hm2 in B2, B2'.
  pose proof (pow2_le (E + k1) (E + k1 + k2) ltac:(lia)) as Hpow.
  pose proof (pow2_pos (E + k1)) as HA.
  rewrite !inject_Z_plus in *. change (inject_Z 1) with 1%Q in *.
  set (A := pow2 (E + k1)) in *. set (B := pow2 (E + k1 + k2)) in *.
  assert (inject_Z mr == inject_Z (shr_m mrs1)
          ∨ inject_Z mr == inject_Z (shr_m mrs1) + 1)%Q as Hcases.
  { destruct (round_nearest_even_cases (shr_m mrs1) (loc_of_shr_record mrs1))
      as [Hr|Hr]; fold mr in Hr; rewrite Hr; [by left|right].
    by rewrite inject_Z_plus. }
  apply Qabs_Qle_condition.
  destruct Hcases as [Hc|Hc]; rewrite Hc in *; split; lra.
Qed.

Lemma digits2_pos_lower (m : positive) :
  (2 ^ (Z.pos (digits2_pos m) - 1) ≤ Z.pos m)%Z.
Proof.
  induction m as [m IH|m IH|]; cbn [digits2_pos]; [| |done].
  - rewrite Pos2Z.inj_succ. replace (Z.succ (Z.pos (digits2_pos m)) - 1)%Z
      with (Z.pos (digits2_pos m) - 1 + 1)%Z by lia.
    rewrite Z.pow_add_r by lia. lia.
  - rewrite Pos2Z.inj_succ. replace (Z.succ (Z.pos (digits2_pos m)) - 1)%Z
      with (Z.pos (digits2_pos m) - 1 + 1)%Z by lia.
    rewrite Z.pow_add_r by lia. lia.
Qed.

Lemma normal_is_accurate (s : bool) (m : positive) (e : Z) (X : Q) :
  Float64.is_normal (S754_finite s m e) = true →
  (Qabs (inject_Z (Z.pos m) * pow2 e - X) <= 2 * pow2 e)%Q →
  (Qabs (inject_Z (Z.pos m) * pow2 e - X) <= rounding_tolerance * Qabs X)%Q.
Proof.
  cbn [Float64.is_normal]. intros Hd%Z.eqb_eq Hulp.
  pose proof (digits2_pos_lower m) as Hm. rewrite Hd in Hm.
  change (2 ^ (Float64.prec - 1))%Z with 4503599627370496%Z in Hm.
  rewrite Zle_Qle in Hm. pose proof (pow2_pos e) as He.
  assert (inject_Z 4503599627370496 * pow2 e <= inject_Z (Z.pos m) * pow2 e)%Q as HR.
  { apply Qmult_le_compat_r; [done|lra]. }
  set (R := (inject_Z (Z.pos m) * pow2 e)%Q) in *. set (B := pow2 e) in *.
  change (inject_Z 4503599627370496) with (4503599627370496 # 1) in HR.
  apply Qabs_Qle_condition in Hulp as [H1 H2].
  assert (0 <= X)%Q as HX by lra.
  rewrite (Qabs_pos X) by done.
  unfold rounding_tolerance. change (2 ^ 51 - 1)%positive with 2251799813685247%positive.
  apply Qabs_Qle_condition. split; lra.
Qed.

(** A product of positive floats that is a normal number is within
    [rounding_tolerance] of the exact product. *)
Lemma mul_accurate (mx : positive) (ex : Z) (my : positive) (ey : Z) :
  let x := S754_finite false mx ex in
  let y := S754_finite false my ey in
  Float64.is_normal (Float64.mul x y) = true →
  accurate rounding_tolerance (Float64.to_Q x * Float64.to_Q y) (Float64.mul x y).
Proof.
  intros x y. unfold Float64.mul, x, y. cbn [SFmul xorb Float64.to_Q].
  destruct (binary_round_aux _ _ _ _ _ _) as [| | |s m e] eqn:Hround; try done.
  intros Hnormal. split; [done|].
  assert (inject_Z (Z.pos mx) * pow2 ex * (inject_Z (Z.pos my) * pow2 ey)
          == inject_Z (Z.pos (mx * my)) * pow2 (ex + ey))%Q as Hexact.
  { rewrite Pos2Z.inj_mul, inject_Z_mult, pow2_add. ring. }
  apply binary_round_aux_bounds
    with (X := (inject_Z (Z.pos mx) * pow2 ex * (inject_Z (Z.pos my) * pow2 ey))%Q)
    in Hround as [-> Hulp]; [|done|by rewrite Hexact; apply Qle_refl|].
  - cbn [Float64.to_Q]. by apply (normal_is_accurate false).
  - rewrite Hexact, inject_Z_plus. pose proof (pow2_pos (ex + ey)).
    change (inject_Z 1) with 1%Q. lra.
Qed.

Lemma div_core_bounds (mx : positive) (ex : Z) (my : positive) (ey q e' : Z)
    (l : location) :
  SFdiv_core_binary Float64.prec Float64.emax (Z.pos mx) ex (Z.pos my) ey = (q, e', l) →
  (0 ≤ q)%Z
  ∧ (inject_Z q * pow2 e' <= inject_Z (Z.pos mx) * pow2 ex / (inject_Z (Z.pos my) * pow2 ey))%Q
  ∧ (inject_Z (Z.pos mx) * pow2 ex / (inject_Z (Z.pos my) * pow2 ey)
     < inject_Z (q + 1) * pow2 e')%Q.
Proof.
  unfold SFdiv_core_binary. cbv zeta.
  set (e0 := Z.min _ (ex - ey)).
  assert (e0 ≤ ex - ey)%Z as He0 by apply Z.le_min_r.
  set (s := (ex - ey - e0)%Z). assert (0 ≤ s)%Z as Hs by lia.
  set (m' := match s with Z.pos _ => Z.shiftl (Z.pos mx) s | 0%Z => Z.pos mx | _ => 0%Z end).
  assert (m' = Z.pos mx * 2 ^ s)%Z as Hm'.
  { unfold m'. destruct s as [|p|p] eqn:Hsp; [rewrite Z.pow_0_r; lia| |lia].
    by rewrite Z.shiftl_mul_pow2. }
  pose proof (Z_div_mod m' (Z.pos my) ltac:(lia)) as Hdiv.
  destruct (Z.div_eucl m' (Z.pos my)) as [q0 r0]. destruct Hdiv as [Heq Hr].
  intros [= <- <- <-].
  assert (0 < 2 ^ s)%Z as Hpow by (by apply Z.pow_pos_nonneg).
  assert (0 ≤ q0)%Z as Hq by nia.
  split; [done|].
  pose proof (pow2_pos e0) as Hpe0. pose proof (pow2_pos ey) as Hpey.
  assert (0 < inject_Z (Z.pos my))%Q as Hmy by (by rewrite <-(Zlt_Qlt 0)).
  assert (0 < inject_Z (Z.pos my) * pow2 ey)%Q as HD by (by apply Qmult_lt_0_compat).
  assert (pow2 ex == inject_Z (2 ^ s) * pow2 e0 * pow2 ey)%Q as Hex.
  { rewrite <-pow2_of_Z, <-!pow2_add by done. unfold s.
    replace (ex - ey - e0 + e0 + ey)%Z with ex by lia. reflexivity. }
  assert (inject_Z (Z.pos mx) * pow2 ex
          == inject_Z m' * pow2 e0 * pow2 ey)%Q as Hnum.
  { rewrite Hex, Hm', inject_Z_mult. ring. }
  rewrite Hnum.
  assert (inject_Z m' * pow2 e0 * pow2 ey / (inject_Z (Z.pos my) * pow2 ey)
          == inject_Z m' / inject_Z (Z.pos my) * pow2 e0)%Q as Hquot.
  { field. split; lra. }
  rewrite Hquot.
  assert (inject_Z q0 <= inject_Z m' / inject_Z (Z.pos my))%Q as Hlo.
  { apply Qle_shift_div_l; [done|]. rewrite <-inject_Z_mult, <-Zle_Qle. nia. }
  assert (inject_Z m' / inject_Z (Z.pos my) < inject_Z (q0 + 1))%Q as Hhi.
  { apply Qlt_shift_div_r; [done|]. rewrite <-inject_Z_mult, <-Zlt_Qlt. nia. }
  split.
  - apply Qmult_le_compat_r; [done|lra].
  - apply Qmult_lt_compat_r; [done|done].
Qed.

(** A quotient of positive floats that is a normal number is within
    [rounding_tolerance] of the exact quotient. *)
Lemma div_accurate (mx : positive) (ex : Z) (my : positive) (ey : Z) :
  let x := S754_finite false mx ex in
  let y := S754_finite false my ey in
  Float64.is_normal (Float64.div x y) = true →
  accurate rounding_tolerance (Float64.to_Q x / Float64.to_Q y) (Float64.div x y).
Proof.
  intros x y. unfold Float64.div, x, y. cbn [SFdiv xorb Float64.to_Q].
  destruct (SFdiv_core_binary _ _ _ _ _ _) as [[q e'] l] eqn:Hcore.
  apply div_core_bounds in Hcore as (Hq & Hlo & Hhi).
  destruct (binary_round_aux _ _ _ _ _ _) as [| | |s m e] eqn:Hround; try done.
  intros Hnormal. split; [done|].
  apply binary_round_aux_bounds
    with (X := (inject_Z (Z.pos mx) * pow2 ex / (inject_Z (Z.pos my) * pow2 ey))%Q)
    in Hround as [-> Hulp]; [|done..].
  cbn [Float64.to_Q]. by apply (normal_is_accurate false).
Qed.

Lemma zero_accurate (u : Q) (s : bool) : accurate u 0 (S754_zero s).
Proof. split; [done|]. cbn. rewrite Qmult_0_r. apply Qle_refl. Qed.

(** *** Conversion of an integer *)

Lemma digits2_pos_shift (m k : positive) :
  digits2_pos (Pos.iter xO m k) = (digits2_pos m + k)%positive.
Proof.
  induction k as [|k IH] using Pos.peano_ind.
  - cbn. lia.
  - rewrite Pos.iter_succ. cbn [digits2_pos]. rewrite IH. lia.
Qed.

Lemma Zpos_shift (m k : positive) :
  Z.pos (Pos.iter xO m k) = (Z.pos m * 2 ^ Z.pos k)%Z.
Proof.
  induction k as [|k IH] using Pos.peano_ind.
  - cbn. lia.
  - rewrite Pos.iter_succ, Pos2Z.inj_xO, IH, Pos2Z.inj_succ, Z.pow_succ_r by lia. lia.
Qed.

Lemma round_full_significand (s : bool) (m : positive) (e : Z) :
  Z.pos (digits2_pos m) = 53%Z → (-1074 ≤ e ≤ 971)%Z →
  binary_round_aux Float64.prec Float64.emax s (Z.pos m) e loc_Exact
  = S754_finite s m e.
Proof.
  intros Hd He. unfold binary_round_aux, shr_fexp. cbn [Zdigits2 shr_record_of_loc].
  rewrite Hd.
  assert (fexp Float64.prec Float64.emax (53 + e) - e = 0)%Z as Hn.
  { unfold fexp, emin, Float64.prec, Float64.emax. lia. }
  rewrite Hn. cbn [shr shr_m loc_of_shr_record round_nearest_even Zdigits2 shr_record_of_loc].
  rewrite Hd, Hn. cbn [shr shr_m].
  unfold Float64.emax, Float64.prec.
  destruct (Z.leb_spec e (1024 - 53)); [done|lia].
Qed.

(** An integer below 2^53 is a float: its conversion is exact. *)
Lemma of_Z_exact (P : Z) :
  (0 < P < 2 ^ 53)%Z → (Float64.to_Q (Float64.of_Z P) == inject_Z P)%Q.
Proof.
  intros [HP Hlt]. destruct P as [|m|m]; try lia.
  unfold Float64.of_Z, binary_normalize, binary_round.
  pose proof (digits2_pos_lower m) as Hlow.
  assert (Z.pos (digits2_pos m) ≤ 53)%Z as Hd.
  { destruct (Z.le_gt_cases (Z.pos (digits2_pos m)) 53) as [|Hgt]; [done|].
    assert (2 ^ 53 ≤ 2 ^ (Z.pos (digits2_pos m) - 1))%Z by (apply Z.pow_le_mono_r; lia).
    lia. }
  assert (fexp Float64.prec Float64.emax (Z.pos (digits2_pos m) + 0)
          = Z.pos (digits2_pos m) - 53)%Z as Hfexp.
  { unfold fexp, emin, Float64.prec, Float64.emax. lia. }
  rewrite Hfexp. unfold shl_align.
  destruct (Z.pos (digits2_pos m) - 53 - 0)%Z as [|k|k] eqn:Hk; [|lia|].
  - rewrite round_full_significand by lia. cbn. unfold pow2. cbn. ring.
  - rewrite round_full_significand.
    + cbn [Float64.to_Q]. rewrite Zpos_shift, inject_Z_mult, <-pow2_of_Z by lia.
      rewrite <-Qmult_assoc, <-pow2_add.
      replace (Z.pos k + (Z.pos (digits2_pos m) - 53))%Z with 0%Z by lia.
      unfold pow2. cbn. ring.
    + rewrite digits2_pos_shift. lia.
    + lia.
Qed.

(** ** The apportionment in float64 *)

Lemma Qsum_le_pointwise {A} (g h : A → Q) (l : list A) :
  (∀ x, x ∈ l → (g x <= h x)%Q) → (Qsum (g <$> l) <= Qsum (h <$> l))%Q.
Proof.
  induction l as [|a l IH]; intros Hle; [apply Qle_refl|].
  rewrite !fmap_cons.
  change (g a + Qsum (g <$> l) <= h a + Qsum (h <$> l))%Q.
  apply Qplus_le_compat.
  - apply Hle. apply elem_of_cons. by left.
  - apply IH. intros x Hx. apply Hle. apply elem_of_cons. by right.
Qed.

Lemma Qsum_fmap_scale {A} (g : A → Q) (c : Q) (l : list A) :
  (Qsum ((λ x, g x * c) <$> l) == Qsum (g <$> l) * c)%Q.
Proof.
  induction l as [|a l IH]; [by cbn; rewrite Qmult_0_l|].
  rewrite !fmap_cons.
  change (g a * c + Qsum ((λ x, g x * c) <$> l) == (g a + Qsum (g <$> l)) * c)%Q.
  rewrite IH. ring.
Qed.

Lemma to_dict_fmap {K} `{Countable K} {V W} (g : V → W) (items : list (K * V)) :
  g <$> to_dict items = to_dict ((λ kv, (kv.1, g kv.2)) <$> items).
Proof.
  induction items as [|[k v] items IH] using rev_ind.
  - change (g <$> (∅ : gmap K V) = ∅). apply fmap_empty.
  - rewrite fmap_app. cbn [fmap list_fmap fst snd].
    by rewrite !to_dict_snoc, fmap_insert, IH.
Qed.

Lemma accurate_bounds (u exact : Q) (x : float64) :
  (0 <= exact)%Q → accurate u exact x →
  ((1 - u) * exact <= Float64.to_Q x)%Q ∧ (Float64.to_Q x <= (1 + u) * exact)%Q.
Proof.
  intros Hex [_ Habs]. rewrite (Qabs_pos exact) in Habs by done.
  apply Qabs_Qle_condition in Habs as [Hlo Hhi]. split; lra.
Qed.

Section FloatApportionment.
Context {G : Type} `{!Geometry G} (lib : FloatLib G).
Implicit Types (geo_df : GeoDataFrame G) (f : feature G) (P : Z) (p : float64).

Lemma build64_total_area geo_df :
  sum64 lib ((λ f, area64 lib (geometry f)) <$> features (to_crs "EPSG:26986" geo_df))
  = total_area64 lib geo_df.
Proof.
  unfold total_area64, to_crs. cbn [features]. by rewrite <-list_fmap_compose.
Qed.

Lemma build64_nonzero geo_df P p :
  Float64.eqb (total_area64 lib geo_df) Float64.zero = false →
  Float64.float_of_int P = Some p →
  F64._build_area_weighted_population lib geo_df P
  = Some (to_dict ((λ f, (attrs f !! "NBHD", area_share64 lib geo_df f p))
                     <$> features geo_df)).
Proof.
  intros Hne Hp. unfold F64._build_area_weighted_population. cbv zeta.
  rewrite build64_total_area, Hne, Hp. cbn [mbind option_bind].
  unfold to_crs. cbn [features]. by rewrite <-list_fmap_compose.
Qed.

(** The fallback: every distinct non-null name gets [float(P)]. *)
Lemma build64_zero geo_df P p :
  Float64.eqb (total_area64 lib geo_df) Float64.zero = true →
  Float64.float_of_int P = Some p →
  F64._build_area_weighted_population lib geo_df P
  = Some (to_dict ((λ name, (Some name, p)) <$> unique (dropna (region_names geo_df)))).
Proof.
  intros Hz Hp. unfold F64._build_area_weighted_population. cbv zeta.
  rewrite build64_total_area, Hz. fold (region_names geo_df).
  generalize (unique (dropna (region_names geo_df))) as names. intros names.
  assert (mapM (λ name, p' ← Float64.float_of_int P; Some (Some name, p')) names
          = Some ((λ name, (Some name, p)) <$> names)) as ->; [|done].
  induction names as [|name names IH]; [done|].
  cbn [mapM]. rewrite IH, Hp. done.
Qed.

Lemma eqb_zero_false (x : float64) :
  (0 < Float64.to_Q x)%Q → Float64.eqb x Float64.zero = false.
Proof.
  destruct x as [s|s| |[] m e]; intros Hx; try reflexivity; by apply Qlt_irrefl in Hx.
Qed.

End FloatApportionment.

Lemma named_items_keys {G V} (g : feature G → V) (l : list (feature G)) :
  ((λ f, (attrs f !! "NBHD", g f)) <$> l).*1 = (λ f, attrs f !! "NBHD") <$> l.
Proof. by rewrite <-list_fmap_compose. Qed.

Section FloatApportionmentClaims.
Context {G : Type} `{!Geometry G} (lib : FloatLib G).
Implicit Types (geo_df : GeoDataFrame G) (f : feature G) (P : Z) (p : float64).

Lemma float_shares_sum geo_df p (u e : Q) :
  (0 <= Float64.to_Q p)%Q →
  (0 <= u)%Q → (u <= 1)%Q → (0 <= e)%Q → (e < 1)%Q →
  (∀ f, f ∈ features geo_df → (0 <= Float64.to_Q (projected_area64 lib geo_df f))%Q) →
  (0 < exact_total_area lib geo_df)%Q →
  accurate e (exact_total_area lib geo_df) (total_area64 lib geo_df) →
  (∀ f, f ∈ features geo_df →
     accurate u (Float64.to_Q (projected_area64 lib geo_df f)
                 / Float64.to_Q (total_area64 lib geo_df))
              (area_quotient64 lib geo_df f)
     ∧ accurate u (Float64.to_Q (area_quotient64 lib geo_df f) * Float64.to_Q p)
                (area_share64 lib geo_df f p)) →
  let V := Qsum ((λ f, Float64.to_Q (area_share64 lib geo_df f p)) <$> features geo_df) in
  ((1 - u) * (1 - u) * Float64.to_Q p <= (1 + e) * V)%Q
  ∧ ((1 - e) * V <= (1 + u) * (1 + u) * Float64.to_Q p)%Q.
Proof.
  intros Hp Hu0 Hu1 He0 He1 Hareas HS Htot Hops V.
  set (S := exact_total_area lib geo_df) in *.
  set (t := Float64.to_Q (total_area64 lib geo_df)) in *.
  set (q := Float64.to_Q p) in *.
  destruct (accurate_bounds e S _ (Qlt_le_weak _ _ HS) Htot) as [Htlo Hthi].
  fold t in Htlo, Hthi.
  assert (0 < t)%Q as Ht by nra.
  set (r := (/ t)%Q).
  assert (0 < r)%Q as Hr by (by apply Qinv_lt_0_compat).
  assert (t * r == 1)%Q as Htr by (apply Qmult_inv_r; lra).
  assert (∀ f, f ∈ features geo_df →
            ((1 - u) * (1 - u) * q * r * Float64.to_Q (projected_area64 lib geo_df f)
             <= Float64.to_Q (area_share64 lib geo_df f p))%Q
            ∧ (Float64.to_Q (area_share64 lib geo_df f p)
               <= (1 + u) * (1 + u) * q * r
                  * Float64.to_Q (projected_area64 lib geo_df f))%Q) as Hterm.
  { intros f Hf. destruct (Hops f Hf) as [Hq Hv].
    pose proof (Hareas f Hf) as Ha.
    set (a := Float64.to_Q (projected_area64 lib geo_df f)) in *.
    assert (0 <= a / t)%Q as Hex1.
    { unfold Qdiv. fold r. nra. }
    destruct (accurate_bounds u _ _ Hex1 Hq) as [Hqlo Hqhi].
    set (x := Float64.to_Q (area_quotient64 lib geo_df f)) in *.
    unfold Qdiv in Hqlo, Hqhi. fold r in Hqlo, Hqhi.
    assert (0 <= a * r)%Q as Har by nra.
    assert (0 <= x)%Q as Hx by nra.
    assert (0 <= x * q)%Q as Hex2 by nra.
    destruct (accurate_bounds u _ _ Hex2 Hv) as [Hvlo Hvhi].
    set (v := Float64.to_Q (area_share64 lib geo_df f p)) in *.
    assert (0 <= (1 - u) * q)%Q as Hwq by nra.
    assert (0 <= (1 + u) * q)%Q as Hwq' by nra.
    pose proof (Qmult_le_compat_r _ _ _ Hqlo Hwq) as Hlo.
    pose proof (Qmult_le_compat_r _ _ _ Hqhi Hwq') as Hhi.
    split; lra. }
  assert (Qsum ((λ f, Float64.to_Q (projected_area64 lib geo_df f)
                      * ((1 - u) * (1 - u) * q * r)) <$> features geo_df) <= V)%Q as Hlo.
  { apply Qsum_le_pointwise. intros f Hf. destruct (Hterm f Hf) as [Hl _]. lra. }
  assert (V <= Qsum ((λ f, Float64.to_Q (projected_area64 lib geo_df f)
                           * ((1 + u) * (1 + u) * q * r)) <$> features geo_df))%Q as Hhi.
  { apply Qsum_le_pointwise. intros f Hf. destruct (Hterm f Hf) as [_ Hh]. lra. }
  rewrite Qsum_fmap_scale in Hlo, Hhi.
  change (Qsum ((λ f, Float64.to_Q (projected_area64 lib geo_df f)) <$> features geo_df))
    with S in Hlo, Hhi.
  assert (0 <= (1 - u) * (1 - u) * q * r)%Q as HK.
  { repeat apply Qmult_le_0_compat; lra. }
  assert (0 <= (1 + u) * (1 + u) * q * r)%Q as HK'.
  { repeat apply Qmult_le_0_compat; lra. }
  pose proof (Qmult_le_compat_r _ _ _ Hthi HK) as H1.
  pose proof (Qmult_le_compat_r _ _ _ Htlo HK') as H2.
  assert (0 <= S * ((1 - u) * (1 - u) * q * r))%Q as HSK.
  { apply Qmult_le_0_compat; lra. }
  assert (0 <= V)%Q as HV by lra.
  assert (t * ((1 - u) * (1 - u) * q * r) == (1 - u) * (1 - u) * q * (t * r))%Q as E1 by ring.
  assert (t * ((1 + u) * (1 + u) * q * r) == (1 + u) * (1 + u) * q * (t * r))%Q as E2 by ring.
  rewrite Htr in E1, E2.
  assert (0 <= 1 + e)%Q as He2 by lra.
  assert (0 <= 1 - e)%Q as He3 by lra.
  pose proof (Qmult_le_compat_r _ _ _ Hlo He2) as H3.
  pose proof (Qmult_le_compat_r _ _ _ Hhi He3) as H4.
  split; lra.
Qed.

End FloatApportionmentClaims.

Lemma accurate_eq (u exact exact' : Q) (x : float64) :
  (exact == exact')%Q → accurate u exact x → accurate u exact' x.
Proof. intros Heq [Hfin Habs]. split; [done|]. by rewrite <-Heq. Qed.

Lemma to_Q_finite_pos (m : positive) (e : Z) :
  (0 < Float64.to_Q (S754_finite false m e))%Q.
Proof.
  cbn. apply Qmult_lt_0_compat; [by rewrite <-(Zlt_Qlt 0)|apply pow2_pos].
Qed.

Lemma to_Q_pos_inv (x : float64) :
  (0 < Float64.to_Q x)%Q → ∃ m e, x = S754_finite false m e.
Proof.
  destruct x as [s|s| |[] m e]; intros Hx; try (by apply Qlt_irrefl in Hx); [|by eauto].
  pose proof (to_Q_finite_pos m e) as Hpos. cbn in Hx, Hpos. lra.
Qed.

Lemma to_Q_zero_inv (x : float64) :
  Float64.is_finite x = true → (0 <= Float64.to_Q x)%Q → ¬ (0 < Float64.to_Q x)%Q →
  ∃ s, x = S754_zero s.
Proof.
  destruct x as [s|s| |[] m e]; intros Hfin Hle Hlt; try done; [by eauto| |].
  - pose proof (to_Q_finite_pos m e) as Hpos. cbn in Hle, Hpos. lra.
  - destruct Hlt. apply to_Q_finite_pos.
Qed.

Section FloatApportionmentClaim.
Context {G : Type} `{!Geometry G} (lib : FloatLib G).
Implicit Types (geo_df : GeoDataFrame G) (f : feature G) (P : Z).

(** C1 (as amended), in the arithmetic of float64.  Take regions whose
    names are pairwise distinct and whose projected areas are finite floats,
    none negative, with a positive exact sum, and a positive population [P]
    that float64 represents exactly (by [of_Z_exact] every [P] below 2^53
    is one).  Suppose the computed total area is
    within relative error [e] < 1 of the exact sum of the areas, and that no
    quotient and no product of the computation overflows or underflows:
    for every region of non-zero area both are normal numbers.  Then the
    table is produced, the value of each region is the float64 result of
    (area / total area) × [P], and the exact sum V of the values satisfies
    (1 - u)² [P] ≤ (1 + e) V and (1 - e) V ≤ (1 + u)² [P], for u the
    [rounding_tolerance] of one operation; with e ≤ 2^-21 the sum is within
    [P] / 10^6 of [P]. *)
Theorem area_weighted_population_sums_to_total geo_df P (e : Q) :
  NoDup (region_names geo_df) →
  (0 < P)%Z →
  (Float64.to_Q (Float64.of_Z P) == inject_Z P)%Q →
  (0 <= e)%Q → (e < 1)%Q →
  (∀ f, f ∈ features geo_df →
     Float64.is_finite (projected_area64 lib geo_df f) = true
     ∧ (0 <= Float64.to_Q (projected_area64 lib geo_df f))%Q) →
  (0 < exact_total_area lib geo_df)%Q →
  accurate e (exact_total_area lib geo_df) (total_area64 lib geo_df) →
  (∀ f, f ∈ features geo_df →
     (0 < Float64.to_Q (projected_area64 lib geo_df f))%Q →
     Float64.is_normal (area_quotient64 lib geo_df f) = true
     ∧ Float64.is_normal (area_share64 lib geo_df f (Float64.of_Z P)) = true) →
  ∃ pop,
    F64._build_area_weighted_population lib geo_df P = Some pop
    ∧ (∀ f, f ∈ features geo_df →
         pop !! (attrs f !! "NBHD") = Some (area_share64 lib geo_df f (Float64.of_Z P)))
    ∧ ((1 - rounding_tolerance) * (1 - rounding_tolerance) * inject_Z P
       <= (1 + e) * float_values_sum pop)%Q
    ∧ ((1 - e) * float_values_sum pop
       <= (1 + rounding_tolerance) * (1 + rounding_tolerance) * inject_Z P)%Q
    ∧ ((e <= 1 # 2 ^ 21)%Q →
       (Qabs (float_values_sum pop - inject_Z P) <= inject_Z P * (1 # 1000000))%Q).
Proof.
  intros Hnd HP Hrepr He0 He1 Hareas HS Htot Hnormal.
  set (p := Float64.of_Z P) in *.
  assert (0 < inject_Z P)%Q as HPq by (by rewrite <-(Zlt_Qlt 0)).
  assert (0 < Float64.to_Q p)%Q as Hp by (by rewrite Hrepr).
  destruct (to_Q_pos_inv p Hp) as (mp & ep & Hpeq).
  assert (Float64.float_of_int P = Some p) as Hconv.
  { unfold Float64.float_of_int. fold p. by rewrite Hpeq. }
  destruct (accurate_bounds e _ _ (Qlt_le_weak _ _ HS) Htot) as [Htlo _].
  assert (0 < Float64.to_Q (total_area64 lib geo_df))%Q as Ht by nra.
  destruct (to_Q_pos_inv _ Ht) as (mt & et & Hteq).
  assert (∀ f, f ∈ features geo_df →
            accurate rounding_tolerance
              (Float64.to_Q (projected_area64 lib geo_df f)
               / Float64.to_Q (total_area64 lib geo_df))
              (area_quotient64 lib geo_df f)
            ∧ accurate rounding_tolerance
                (Float64.to_Q (area_quotient64 lib geo_df f) * Float64.to_Q p)
                (area_share64 lib geo_df f p)) as Hops.
  { intros f Hf. destruct (Hareas f Hf) as [Hfin Hnonneg].
    destruct (Qlt_le_dec 0 (Float64.to_Q (projected_area64 lib geo_df f))) as [Hpos|Hzero].
    - destruct (Hnormal f Hf Hpos) as [Hnq Hns].
      destruct (to_Q_pos_inv _ Hpos) as (ma & ea & Haeq).
      assert (accurate rounding_tolerance
                (Float64.to_Q (projected_area64 lib geo_df f)
                 / Float64.to_Q (total_area64 lib geo_df))
                (area_quotient64 lib geo_df f)) as Hq.
      { unfold area_quotient64 in *. rewrite Haeq, Hteq in *. by apply div_accurate. }
      split; [exact Hq|].
      assert (0 < Float64.to_Q (area_quotient64 lib geo_df f))%Q as Hqpos.
      { assert (0 < Float64.to_Q (projected_area64 lib geo_df f)
                    / Float64.to_Q (total_area64 lib geo_df))%Q as Hex.
        { apply Qlt_shift_div_l; [done|]. by rewrite Qmult_0_l. }
        destruct (accurate_bounds _ _ _ (Qlt_le_weak _ _ Hex) Hq) as [Hlo _].
        assert (0 < 1 - rounding_tolerance)%Q by reflexivity. nra. }
      destruct (to_Q_pos_inv _ Hqpos) as (mq & eq & Hqeq).
      unfold area_share64 in *. rewrite Hqeq, Hpeq in *. by apply mul_accurate.
    - destruct (to_Q_zero_inv _ Hfin Hnonneg) as [s Haeq]; [lra|].
      unfold area_share64, area_quotient64. rewrite Haeq, Hteq, Hpeq.
      cbn [Float64.div SFdiv Float64.mul SFmul].
      split; (eapply accurate_eq; [|apply zero_accurate]); cbn [Float64.to_Q].
      + unfold Qdiv. by rewrite Qmult_0_l.
      + by rewrite Qmult_0_l. }
  assert (F64._build_area_weighted_population lib geo_df P
          = Some (to_dict ((λ f, (attrs f !! "NBHD", area_share64 lib geo_df f p))
                             <$> features geo_df))) as Hbuild.
  { apply build64_nonzero; [|done]. by apply eqb_zero_false. }
  eexists. split; [exact Hbuild|].
  assert (NoDup ((λ f, (attrs f !! "NBHD", area_share64 lib geo_df f p))
                   <$> features geo_df).*1) as Hkeys by (by rewrite named_items_keys).
  split.
  { intros f Hf. apply to_dict_lookup_NoDup; [done|].
    apply list_elem_of_fmap. by exists f. }
  assert (float_values_sum
            (to_dict ((λ f, (attrs f !! "NBHD", area_share64 lib geo_df f p))
                        <$> features geo_df))
          == Qsum ((λ f, Float64.to_Q (area_share64 lib geo_df f p)) <$> features geo_df))%Q
    as Hsum.
  { unfold float_values_sum. rewrite to_dict_fmap.
    etransitivity; [apply dict_values_sum_to_dict|].
    - rewrite <-!list_fmap_compose. exact Hnd.
    - by rewrite <-!list_fmap_compose. }
  assert (0 <= rounding_tolerance)%Q as Hu0 by discriminate.
  assert (rounding_tolerance <= 1)%Q as Hu1 by discriminate.
  destruct (float_shares_sum lib geo_df p rounding_tolerance e (Qlt_le_weak _ _ Hp)
              Hu0 Hu1 He0 He1 (λ f Hf, proj2 (Hareas f Hf)) HS Htot Hops) as [Hlo Hhi].
  rewrite Hsum. rewrite Hrepr in Hlo, Hhi.
  split; [exact Hlo|]. split; [exact Hhi|].
  intros He. set (V := Qsum _) in *.
  unfold rounding_tolerance in Hlo, Hhi.
  change (2 ^ 51 - 1)%positive with 2251799813685247%positive in Hlo, Hhi.
  change (2 ^ 21)%positive with 2097152%positive in He.
  assert (0 <= V)%Q as HV by nra.
  assert ((1 + e) * V <= (1 + (1 # 2097152)) * V)%Q as H1.
  { apply Qmult_le_compat_r; [lra|done]. }
  assert ((1 - (1 # 2097152)) * V <= (1 - e) * V)%Q as H2.
  { apply Qmult_le_compat_r; [lra|done]. }
  apply Qabs_Qle_condition. split; lra.
Qed.

End FloatApportionmentClaim.

(** C1, on three unit squares and a population of 100: every value is the
    float 33.33333333333333 (not 100/3), the values add up to
    99.99999999999998..., not to 100, and that is within the tolerance. *)
Lemma area_weighted_population_unit_squares :
  F64._build_area_weighted_population rect_float_lib unit_squares 100
  = Some unit_squares_population
  ∧ unit_squares_population !! Some "East"
    = Some (S754_finite false 4691249611844266 (-47))
  ∧ Qred (float_values_sum unit_squares_population)
    = 7036874417766399 # 70368744177664
  ∧ (Qabs (float_values_sum unit_squares_population - inject_Z 100)
     <= inject_Z 100 * (1 # 1000000))%Q.
Proof.
  assert (NoDup (region_names unit_squares)) as Hnd
    by (apply (bool_decide_unpack _); vm_compute; exact I).
  assert (0 < 100)%Z as HP by lia.
  assert (Float64.to_Q (Float64.of_Z 100) == inject_Z 100)%Q as Hrepr
    by (apply of_Z_exact; split; reflexivity).
  assert (0 <= 0)%Q as He0 by apply Qle_refl.
  assert (0 < 1)%Q as He1 by reflexivity.
  assert (∀ f, f ∈ features unit_squares →
            Float64.is_finite (projected_area64 rect_float_lib unit_squares f) = true
            ∧ (0 <= Float64.to_Q (projected_area64 rect_float_lib unit_squares f))%Q)
    as Hareas.
  { intros f Hf. cbn [features unit_squares] in Hf.
    repeat (apply elem_of_cons in Hf as [->|Hf]); [..|by apply elem_of_nil in Hf];
      (split; [reflexivity|vm_compute; discriminate]). }
  assert (0 < exact_total_area rect_float_lib unit_squares)%Q as HS
    by (vm_compute; reflexivity).
  assert (accurate 0 (exact_total_area rect_float_lib unit_squares)
            (total_area64 rect_float_lib unit_squares)) as Htot
    by (split; [reflexivity|vm_compute; discriminate]).
  assert (∀ f, f ∈ features unit_squares →
            (0 < Float64.to_Q (projected_area64 rect_float_lib unit_squares f))%Q →
            Float64.is_normal (area_quotient64 rect_float_lib unit_squares f) = true
            ∧ Float64.is_normal
                (area_share64 rect_float_lib unit_squares f (Float64.of_Z 100)) = true)
    as Hnormal.
  { intros f Hf _. cbn [features unit_squares] in Hf.
    repeat (apply elem_of_cons in Hf as [->|Hf]); [..|by apply elem_of_nil in Hf];
      (split; vm_compute; reflexivity). }
  destruct (area_weighted_population_sums_to_total rect_float_lib unit_squares 100 0
              Hnd HP Hrepr He0 He1 Hareas HS Htot Hnormal)
    as (pop & Hbuild & _ & _ & _ & Htol).
  assert (pop = unit_squares_population) as ->
    by (unfold unit_squares_population; by rewrite Hbuild).
  split; [exact Hbuild|]. split; [by vm_compute|]. split; [by vm_compute|].
  apply Htol. discriminate.
Defined.

(** C1 as stated fails in two ways.  With areas 1 and 3 under one name and
    a population of 4, the total area is 4 > 0, the table keeps only the
    later region's value and its values add up to 3.  With two regions of
    area 2^1023 under distinct names the total area is infinite, every
    quotient is zero and the values add up to 0, whatever the
    population. *)
Lemma area_weighted_population_shared_name :
  total_area64 rect_float_lib shared_name_regions = Float64.of_Z 4
  ∧ F64._build_area_weighted_population rect_float_lib shared_name_regions 4
    = Some {[ Some "East" := Float64.of_Z 3 ]}
  ∧ Qred (float_values_sum ({[ Some "East" := Float64.of_Z 3 ]}
                              : gmap (option string) float64)) = 3%Q
  ∧ ¬ (Qabs (3 - inject_Z 4) <= inject_Z 4 * (1 # 1000000))%Q
  ∧ NoDup (region_names huge_regions)
  ∧ (projected_area64 rect_float_lib huge_regions <$> features huge_regions)
    = [S754_finite false (2 ^ 52) 971; S754_finite false (2 ^ 52) 971]
  ∧ total_area64 rect_float_lib huge_regions = S754_infinity false
  ∧ F64._build_area_weighted_population rect_float_lib huge_regions 100
    = Some {[ Some "East" := S754_zero false; Some "West" := S754_zero false ]}.
Proof.
  split; [by vm_compute|]. split; [by vm_compute|]. split; [by vm_compute|].
  split; [intros Hle; vm_compute in Hle; by apply Hle|].
  split; [apply (bool_decide_unpack _); vm_compute; exact I|].
  split; [by vm_compute|]. split; by vm_compute.
Qed.

(** ** Bundle composition *)

Section BundleClaims.
Context {G : Type} `{!Geometry G} (env : Env G).

Lemma get_cambridge_bundle_crime c :
  get_cambridge_bundle env = Some c → load_cambridge_crime env = Some (crime c).
Proof.
  unfold get_cambridge_bundle. intros Hc.
  destruct (load_cambridge_crime env) as [rows|]; simplify_eq/=. done.
Qed.

Lemma get_boston_bundle_crime b :
  get_boston_bundle env = Some b → load_boston_crime env = Some (crime b).
Proof.
  unfold get_boston_bundle. intros Hb.
  destruct (load_boston_crime env) as [rows|]; [|done].
  destruct (load_boston_population env) as [p|]; simplify_eq/=. done.
Qed.

Lemma get_somerville_bundle_crime s :
  get_somerville_bundle env = Some s → load_somerville_crime env = crime s.
Proof. unfold get_somerville_bundle. intros Hs. by simplify_eq/=. Qed.

(** C3: whenever the three single-city bundles are available, the
    all-metro bundle is produced and its crime sequence is the Cambridge
    records, then the Boston records, then the Somerville records, each city
    in its own order; its length is the sum of the three lengths. *)
Theorem all_metro_crime_is_concatenation c b s :
  get_cambridge_bundle env = Some c →
  get_boston_bundle env = Some b →
  get_somerville_bundle env = Some s →
  ∃ m, get_all_metro_bundle env = Some m
       ∧ crime m = (crime c ++ crime b ++ crime s)%list
       ∧ length (crime m) = length (crime c) + length (crime b) + length (crime s)
       ∧ load_cambridge_crime env = Some (crime c)
       ∧ load_boston_crime env = Some (crime b)
       ∧ load_somerville_crime env = crime s.
Proof.
  intros Hc Hb Hs.
  pose proof (get_cambridge_bundle_crime c Hc) as Hlc.
  pose proof (get_boston_bundle_crime b Hb) as Hlb.
  pose proof (get_somerville_bundle_crime s Hs) as Hls.
  unfold get_all_metro_bundle. rewrite Hc, Hb, Hs. cbn [mbind option_bind].
  eexists. split; [reflexivity|]. cbn [crime].
  assert (concat [crime c; crime b; crime s] = (crime c ++ crime b ++ crime s)%list) as ->.
  { unfold concat. cbn. by rewrite app_nil_r. }
  rewrite !length_app. repeat split; try done. lia.
Qed.

(** C10: a municipality string other than the three city names gets the
    all-metro bundle, whatever it is; the dispatch itself adds no failure
    (the all-metro bundle is produced exactly when the Cambridge and Boston
    bundles are); each of the three names gets its own city's bundle. *)
Theorem get_bundle_dispatch municipality :
  municipality ≠ "Cambridge" →
  municipality ≠ "Boston" →
  municipality ≠ "Somerville" →
  get_bundle env municipality = get_all_metro_bundle env
  ∧ (is_Some (get_bundle env municipality)
     ↔ is_Some (get_cambridge_bundle env) ∧ is_Some (get_boston_bundle env))
  ∧ get_bundle env "Cambridge" = get_cambridge_bundle env
  ∧ get_bundle env "Boston" = get_boston_bundle env
  ∧ get_bundle env "Somerville" = get_somerville_bundle env.
Proof.
  intros Hc Hb Hs.
  assert (get_bundle env municipality = get_all_metro_bundle env) as Hall.
  { unfold get_bundle. by rewrite !bool_decide_eq_false_2. }
  split; [done|]. split; [|done].
  rewrite Hall. unfold get_all_metro_bundle, get_somerville_bundle.
  destruct (get_cambridge_bundle env) as [c|], (get_boston_bundle env) as [b|]; cbn.
  - split; [eauto|]. intros _. eauto.
  - split; [by intros [? ?]|]. by intros [_ [? ?]].
  - split; [by intros [? ?]|]. by intros [[? ?] _].
  - split; [by intros [? ?]|]. by intros [[? ?] _].
Qed.

End BundleClaims.

(** C3, on the sample data set: two Cambridge, one Boston and three
    Somerville records make six. *)
Lemma all_metro_crime_sample :
  ∃ c b s m,
    get_cambridge_bundle sample_env = Some c
    ∧ get_boston_bundle sample_env = Some b
    ∧ get_somerville_bundle sample_env = Some s
    ∧ get_all_metro_bundle sample_env = Some m
    ∧ crime m = (crime c ++ crime b ++ crime s)%list
    ∧ length (crime m) = 6.
Proof.
  assert (is_Some (get_cambridge_bundle sample_env)) as [c Hc]
    by (vm_compute; eexists; reflexivity).
  assert (is_Some (get_boston_bundle sample_env)) as [b Hb]
    by (vm_compute; eexists; reflexivity).
  assert (is_Some (get_somerville_bundle sample_env)) as [s Hs]
    by (vm_compute; eexists; reflexivity).
  destruct (all_metro_crime_is_concatenation sample_env c b s Hc Hb Hs)
    as (m & Hm & Happ & Hlen & Hlc & Hlb & Hls).
  exists c, b, s, m.
  split; [exact Hc|]. split; [exact Hb|]. split; [exact Hs|].
  split; [exact Hm|]. split; [exact Happ|].
  assert (length <$> load_cambridge_crime sample_env = Some 2) as Hn1
    by (vm_compute; reflexivity).
  assert (length <$> load_boston_crime sample_env = Some 1) as Hn2
    by (vm_compute; reflexivity).
  assert (length (load_somerville_crime sample_env) = 3) as Hn3
    by (vm_compute; reflexivity).
  rewrite Hlc in Hn1. rewrite Hlb in Hn2. rewrite Hls in Hn3.
  change (Some (length (crime c)) = Some 2) in Hn1.
  change (Some (length (crime b)) = Some 1) in Hn2.
  apply (inj Some) in Hn1. apply (inj Some) in Hn2.
  rewrite Hlen, Hn1, Hn2, Hn3. reflexivity.
Defined.

(** C10, on the sample data set: the name ["Metro"] and the empty name
    both get the all-metro bundle. *)
Lemma get_bundle_dispatch_sample :
  "Metro" ≠ "Cambridge" ∧ "Metro" ≠ "Boston" ∧ "Metro" ≠ "Somerville"
  ∧ get_bundle sample_env "Metro" = get_all_metro_bundle sample_env
  ∧ is_Some (get_bundle sample_env "Metro").
Proof.
  assert ("Metro" ≠ "Cambridge") as Hc by discriminate.
  assert ("Metro" ≠ "Boston") as Hb by discriminate.
  assert ("Metro" ≠ "Somerville") as Hs by discriminate.
  destruct (get_bundle_dispatch sample_env "Metro" Hc Hb Hs) as (Hall & Hsome & _).
  split; [exact Hc|]. split; [exact Hb|]. split; [exact Hs|].
  split; [exact Hall|].
  apply Hsome. split; vm_compute; eexists; reflexivity.
Defined.


(** ** Column operations on one row *)

Section Rows.
Context {V : Type}.
Implicit Types (r : gmap string V) (c : string) (cols : list string).

Lemma lookup_select cols r c :
  select cols r !! c = if decide (c ∈ cols) then r !! c else None.
Proof.
  unfold select. rewrite map_lookup_filter.
  destruct (r !! c) as [x|]; cbn; [|by case_decide].
  case_guard; try done.
Qed.

Lemma lookup_drop_cols cols r c :
  drop_cols cols r !! c = if decide (c ∈ cols) then None else r !! c.
Proof.
  unfold drop_cols. rewrite map_lookup_filter.
  destruct (r !! c) as [x|]; cbn; [|by case_decide].
  case_guard as Hc; case_decide; try done.
Qed.

Lemma lookup_rename_col_new (old new : string) r :
  old ≠ new → rename_col old new r !! new = r !! old.
Proof.
  intros Hne. unfold rename_col. destruct (r !! old) as [x|] eqn:Hx.
  - apply lookup_insert_eq.
  - apply lookup_delete_eq.
Qed.

Lemma lookup_rename_col_other (old new : string) r c :
  c ≠ old → c ≠ new → rename_col old new r !! c = r !! c.
Proof.
  intros Ho Hn. unfold rename_col. destruct (r !! old) as [x|] eqn:Hx.
  - by rewrite lookup_insert_ne, lookup_delete_ne.
  - by rewrite lookup_delete_ne.
Qed.

End Rows.

Section Cells.
Context {G : Type}.
Implicit Types (r : row G) (c : string) (v : option (cell G)).

Lemma lookup_set_col_eq c v r : set_col c v r !! c = v.
Proof. destruct v; [apply lookup_insert_eq|apply lookup_delete_eq]. Qed.

Lemma lookup_set_col_ne c c' v r : c ≠ c' → set_col c v r !! c' = r !! c'.
Proof. intros ?. destruct v; cbn; [by apply lookup_insert_ne|by apply lookup_delete_ne]. Qed.

Lemma text_Str (o : option string) : text (Str (G:=G) <$> o) = o.
Proof. by destruct o. Qed.

Lemma the_date_Str (o : option string) : the_date (Str (G:=G) <$> o) = None.
Proof. by destruct o. Qed.

End Cells.

(** Membership of a column name in a literal list of names. *)
Ltac column_name :=
  first [ discriminate
        | apply (bool_decide_unpack _); vm_compute; exact I ].

(** Rewrites the lookups of a row built by column assignments, selections,
    drops and renames. *)
Ltac row_lookups :=
  repeat first
    [ rewrite lookup_set_col_eq
    | rewrite lookup_set_col_ne by column_name
    | rewrite lookup_insert_eq
    | rewrite lookup_insert_ne by column_name
    | rewrite lookup_delete_eq
    | rewrite lookup_delete_ne by column_name
    | rewrite lookup_rename_col_new by column_name
    | rewrite lookup_rename_col_other by column_name
    | rewrite lookup_select
    | rewrite lookup_drop_cols
    | rewrite decide_True by column_name
    | rewrite decide_False by column_name
    | rewrite lookup_fmap
    | rewrite text_Str ].

Section CambridgeBoston.
Context {G : Type} `{!Geometry G} (env : Env G).
Implicit Types (r : text_row) (o : row G).

Lemma cambridge_record_fields r o :
  cambridge_record env r = Some o →
  crime_label o = r !! "Crime"
  ∧ macro_category o = r !! "Crime" ≫= (CAMBRIDGE_CRIME_MACROS env !!.)
  ∧ neighborhood o = r !! "Neighborhood"
  ∧ to_datetime_raise env (PyStr.split_first <$> r !! "Crime Date Time")
    = Some (o !! "Date").
Proof.
  unfold cambridge_record. cbv zeta. row_lookups.
  destruct (to_datetime_raise _ _) as [d|] eqn:Hd; [|done].
  cbn [mbind option_bind]. intros Ho. apply (inj Some) in Ho. subst o.
  unfold crime_label, macro_category, neighborhood. row_lookups. done.
Qed.

Lemma cambridge_record_is_Some r :
  is_Some (cambridge_record env r)
  ↔ is_Some (to_datetime_raise env (PyStr.split_first <$> r !! "Crime Date Time")).
Proof.
  unfold cambridge_record. cbv zeta. row_lookups.
  destruct (to_datetime_raise _ _) as [d|]; cbn; split; intros [? ?]; eauto; done.
Qed.

Lemma boston_record_fields r o :
  boston_record env r = Some o →
  crime_label o = PyStr.title <$> r !! "Crime"
  ∧ macro_category o
    = (PyStr.title <$> r !! "Crime") ≫= (BOSTON_CRIME_MACROS env !!.)
  ∧ neighborhood o = r !! "Neighborhood"
  ∧ to_datetime_raise env (PyStr.split_first <$> r !! "From Date")
    = Some (o !! "Date").
Proof.
  unfold boston_record. cbv zeta. row_lookups.
  destruct (to_datetime_raise _ _) as [d|] eqn:Hd; [|done].
  cbn [mbind option_bind]. intros Ho. apply (inj Some) in Ho. subst o.
  unfold crime_label, macro_category, neighborhood. row_lookups. done.
Qed.

Lemma boston_record_is_Some r :
  is_Some (boston_record env r)
  ↔ is_Some (to_datetime_raise env (PyStr.split_first <$> r !! "From Date")).
Proof.
  unfold boston_record. cbv zeta. row_lookups.
  destruct (to_datetime_raise _ _) as [d|]; cbn; split; intros [? ?]; eauto; done.
Qed.

End CambridgeBoston.

(** ** The Somerville joins, record by record *)

Section Somerville.
Context {G : Type} `{!Geometry G} (env : Env G).
Implicit Types (r : text_row) (o x rec : row G) (nb : option string).

Lemma filter_imap_snd {A I} (q : A → bool) (f : nat → A → I * A) (l : list A) :
  (∀ i a, (f i a).2 = a) →
  (filter (λ p : I * A, q p.2 = true) (imap f l)).*2 = filter (λ a, q a = true) l.
Proof.
  revert f. induction l as [|a l IH]; intros f Hf; [done|].
  cbn [imap]. rewrite !filter_cons. rewrite Hf.
  specialize (IH (f ∘ S) (λ i a, Hf (S i) a)).
  destruct (decide (q a = true)); cbn; rewrite IH; by rewrite ?Hf.
Qed.

Lemma somerville_record_columns r :
  somerville_record env r !! "NBHD" = None
  ∧ somerville_record env r !! "Neighborhood" = None
  ∧ somerville_record env r !! "geometry" = None.
Proof. unfold somerville_record. cbv zeta. by row_lookups. Qed.

Lemma finish_row x r nb :
  x !! "Date" = somerville_record env r !! "Date" →
  x !! "Crime" = somerville_record env r !! "Crime" →
  x !! "Macro Crime" = somerville_record env r !! "Macro Crime" →
  x !! "NBHD" = Str <$> nb →
  select ["Date"; "Crime"; "Macro Crime"; "Neighborhood"]
    (drop_cols ["geometry"; "Block Code"; "GEOID20"; "index_right"]
       (rename_col "NBHD" "Neighborhood" x))
  = somerville_emitted env r nb.
Proof.
  intros Hd Hc Hm Hn. apply map_eq. intros c. unfold somerville_emitted.
  destruct (decide (c = "Neighborhood")) as [->|Hne].
  { row_lookups. done. }
  rewrite lookup_set_col_ne by done. rewrite !lookup_select.
  destruct (decide (c = "Date")) as [->|?]; [by row_lookups|].
  destruct (decide (c = "Crime")) as [->|?]; [by row_lookups|].
  destruct (decide (c = "Macro Crime")) as [->|?]; [by row_lookups|].
  rewrite !decide_False; [done|..];
    rewrite !not_elem_of_cons; repeat split; try done; apply not_elem_of_nil.
Qed.

Lemma fmap_list_bind {A B C} (h : B → C) (f : A → list B) (l : list A) :
  h <$> (l ≫= f) = l ≫= (λ a, h <$> f a).
Proof.
  induction l as [|a l IH]; [done|].
  by rewrite !bind_cons, fmap_app, IH.
Qed.

Lemma sjoin_left_finish x r :
  x !! "Date" = somerville_record env r !! "Date" →
  x !! "Crime" = somerville_record env r !! "Crime" →
  x !! "Macro Crime" = somerville_record env r !! "Macro Crime" →
  x !! "NBHD" = None →
  somerville_finish <$> sjoin_left (features (load_somerville_geo env)) x
  = somerville_emitted env r <$> joined_neighborhoods env (the_geometry (x !! "geometry")).
Proof.
  intros Hd Hc Hm Hn. unfold sjoin_left, joined_neighborhoods.
  assert (somerville_finish x = somerville_emitted env r None) as Hnone.
  { by apply finish_row. }
  destruct (the_geometry (x !! "geometry")) as [g|]; [|by rewrite !fmap_cons, Hnone].
  assert ((filter (λ p : nat * feature G, intersects g (geometry p.2) = true)
             (imap pair (features (load_somerville_geo env)))).*2
          = intersecting_neighborhoods env g) as Hhits.
  { unfold intersecting_neighborhoods.
    apply (filter_imap_snd (λ p, intersects g (geometry p)) pair). done. }
  destruct (filter _ (imap pair _)) as [|h hits] eqn:Hf.
  - rewrite <-Hhits. rewrite fmap_nil. by rewrite !fmap_cons, Hnone.
  - rewrite <-Hhits. rewrite (fmap_cons snd).
    rewrite <-(fmap_cons snd), <-!list_fmap_compose.
    apply list_fmap_ext. intros _ p _. cbn.
    apply finish_row; by row_lookups.
Qed.

(** The loader, record by record: what the frame-wise statements emit
    for one crime row is one record per neighborhood the joins find. *)
Lemma somerville_rows_spec r :
  somerville_rows env r = somerville_emitted env r <$> somerville_neighborhoods env r.
Proof.
  unfold somerville_rows. cbv zeta.
  rewrite <-!list_fmap_compose.
  change (select _ ∘ drop_cols _ ∘ rename_col _ _) with (@somerville_finish G).
  rewrite fmap_list_bind. unfold merge_left, somerville_neighborhoods.
  fold (matching_blocks env r).
  destruct (somerville_record_columns r) as (Hnb & _ & Hg).
  destruct (matching_blocks env r) as [|b bs].
  - rewrite bind_singleton, (sjoin_left_finish _ r) by done. by rewrite Hg.
  - rewrite list_fmap_bind, fmap_list_bind. apply list_bind_ext; [|done].
    intros b'. unfold compose.
    rewrite (sjoin_left_finish _ r).
    all: row_lookups; done.
Qed.

End Somerville.

Section SomervilleFields.
Context {G : Type} `{!Geometry G} (env : Env G).
Implicit Types (r : text_row) (nb : option string).

Lemma somerville_emitted_fields r nb :
  crime_label (somerville_emitted env r nb)
  = Some (PyStr.title (astype_str (r !! "Offense Type")))
  ∧ macro_category (somerville_emitted env r nb)
    = SOMERVILLE_CRIME_MACROS env !! PyStr.title (astype_str (r !! "Offense Type"))
  ∧ neighborhood (somerville_emitted env r nb) = nb
  ∧ somerville_emitted env r nb !! "Date"
    = to_datetime_coerce env (somerville_date_text r).
Proof.
  unfold crime_label, macro_category, neighborhood, somerville_emitted,
    somerville_record.
  cbv zeta. row_lookups. cbn [text mbind option_bind]. row_lookups. done.
Qed.

Lemma somerville_block_code r :
  text (somerville_record env r !! "Block Code")
  = Some (PyStr.rstrip ".0" (astype_str (r !! "Block Code"))).
Proof. unfold somerville_record. cbv zeta. by row_lookups. Qed.

Lemma somerville_neighborhoods_nonempty r : somerville_neighborhoods env r ≠ [].
Proof.
  unfold somerville_neighborhoods.
  destruct (matching_blocks env r) as [|b bs]; [done|].
  rewrite bind_cons. destruct (intersecting_neighborhoods env (geometry b)); done.
Qed.

(** No crime row is dropped by the joins. *)
Lemma somerville_join_nonempty r : somerville_rows env r ≠ [].
Proof.
  rewrite somerville_rows_spec.
  intros Hnil%fmap_nil_inv. by apply somerville_neighborhoods_nonempty in Hnil.
Qed.

End SomervilleFields.

Section SomervilleClaims.
Context {G : Type} `{!Geometry G} (env : Env G).
Implicit Types (r : text_row) (o : row G).

(** C4 (as amended): every crime row yields at least one output record,
    each of them that row's record with some neighborhood; a row whose
    block identifier matches no census-block geometry yields exactly one
    record, with a null neighborhood; when no matching block geometry
    intersects a neighborhood polygon, every record of the row has a null
    neighborhood; and a row that matches exactly one block geometry, which
    intersects exactly one neighborhood polygon, yields exactly one record,
    with that polygon's name. *)
Theorem somerville_join_retains_records r :
  somerville_rows env r ≠ []
  ∧ (∀ o, o ∈ somerville_rows env r → ∃ nb, o = somerville_emitted env r nb)
  ∧ (matching_blocks env r = [] →
     ∃ o, somerville_rows env r = [o] ∧ neighborhood o = None)
  ∧ ((∀ b, b ∈ matching_blocks env r →
        intersecting_neighborhoods env (geometry b) = []) →
     Forall (λ o, neighborhood o = None) (somerville_rows env r))
  ∧ (∀ b p, matching_blocks env r = [b] →
       intersecting_neighborhoods env (geometry b) = [p] →
       ∃ o, somerville_rows env r = [o] ∧ neighborhood o = attrs p !! "NBHD").
Proof.
  rewrite somerville_rows_spec.
  split; [|split; [|split; [|split]]].
  - intros Hnil%fmap_nil_inv. by apply somerville_neighborhoods_nonempty in Hnil.
  - intros o (nb & -> & _)%list_elem_of_fmap. by exists nb.
  - intros Hno. unfold somerville_neighborhoods. rewrite Hno.
    eexists. split; [reflexivity|]. apply somerville_emitted_fields.
  - intros Hnone. apply Forall_fmap, Forall_forall. intros nb Hnb. cbn.
    destruct (somerville_emitted_fields env r nb) as (_ & _ & -> & _).
    unfold somerville_neighborhoods in Hnb.
    destruct (matching_blocks env r) as [|b bs] eqn:Hm.
    { by apply list_elem_of_singleton in Hnb. }
    apply list_elem_of_bind in Hnb as (b' & Hnb & Hb').
    rewrite (Hnone b' Hb') in Hnb. by apply list_elem_of_singleton in Hnb.
  - intros b p Hb Hp. unfold somerville_neighborhoods. rewrite Hb.
    rewrite bind_singleton, Hp.
    eexists. split; [reflexivity|]. apply somerville_emitted_fields.
Qed.

End SomervilleClaims.

(** C4, on the sample data set: the assault row matches one block, which
    meets Winter Hill alone, and yields one record there. *)
Lemma somerville_join_sample :
  (attrs <$> matching_blocks sample_env assault_row)
  = [ {[ "GEOID20" := "250173501001"; "TOWN" := "SOMERVILLE" ]} ]
  ∧ ∃ o, somerville_rows sample_env assault_row = [o]
         ∧ neighborhood o = Some "Winter Hill".
Proof.
  split; [vm_compute; reflexivity|].
  destruct (somerville_join_retains_records sample_env assault_row)
    as (_ & _ & _ & _ & Hone).
  destruct (matching_blocks sample_env assault_row) as [|b [|b' bs]] eqn:Hb;
    [vm_compute in Hb; discriminate Hb| |vm_compute in Hb; discriminate Hb].
  destruct (intersecting_neighborhoods sample_env (geometry b)) as [|p [|p' ps]] eqn:Hp.
  - vm_compute in Hb. injection Hb as <-. vm_compute in Hp. discriminate Hp.
  - destruct (Hone b p eq_refl Hp) as (o & Ho & Hn). exists o. split; [exact Ho|].
    rewrite Hn. vm_compute in Hb. injection Hb as <-.
    vm_compute in Hp. injection Hp as <-. vm_compute. reflexivity.
  - vm_compute in Hb. injection Hb as <-. vm_compute in Hp. discriminate Hp.
Defined.

(** C4 as stated fails on a boundary block: the block is contained in the
    western neighborhood alone, yet it also touches the eastern one, and the
    join on intersection yields two records for the one crime row. *)
Lemma somerville_join_boundary_block :
  (geometry <$> matching_blocks boundary_env assault_row) = [mkrect 0 0 1 1]
  ∧ ((λ p, attrs p !! "NBHD")
       <$> containing_neighborhoods boundary_env (mkrect 0 0 1 1)) = [Some "West"]
  ∧ (neighborhood <$> somerville_rows boundary_env assault_row)
    = [Some "West"; Some "East"]
  ∧ length (load_somerville_crime boundary_env) = 2.
Proof. repeat split; vm_compute; reflexivity. Qed.

Section SourceLoaderClaims.
Context {G : Type} `{!Geometry G} (env : Env G).
Implicit Types (r : text_row) (o : row G).

Lemma load_cambridge_crime_rows rows :
  load_cambridge_crime env = Some rows →
  Forall2 (λ r o, cambridge_record env r = Some o) (CAMBRIDGE_CRIME_CSV env) rows.
Proof. unfold load_cambridge_crime. by intros ?%mapM_Some. Qed.

Lemma load_boston_crime_rows rows :
  load_boston_crime env = Some rows →
  Forall2 (λ r o, boston_record env r = Some o) (BOSTON_CRIME_CSV env) rows.
Proof. unfold load_boston_crime. by intros ?%mapM_Some. Qed.

Lemma load_somerville_crime_rows o :
  o ∈ load_somerville_crime env →
  ∃ r nb, r ∈ SOMERVILLE_CRIME_CSV env ∧ o = somerville_emitted env r nb.
Proof.
  unfold load_somerville_crime. intros (r & Ho & Hr)%list_elem_of_bind.
  rewrite somerville_rows_spec in Ho.
  apply list_elem_of_fmap in Ho as (nb & -> & _). by exists r, nb.
Qed.

(** C5 (as amended): in every city's loader the macro category of an
    emitted record is the city's category table at the record's emitted
    crime label, null when the table has no such key; the emitted label is
    the raw label in title case for Boston and Somerville, and the raw
    label unchanged for Cambridge.  The records correspond one to one to
    the rows of the table (Somerville: at least one per row), and a loader
    fails on unparsable dates only, never on an unmapped label. *)
Theorem macro_category_is_table_lookup :
  (∀ rows, load_cambridge_crime env = Some rows →
     Forall2 (λ r o, crime_label o = r !! "Crime"
                     ∧ macro_category o
                       = crime_label o ≫= (CAMBRIDGE_CRIME_MACROS env !!.))
             (CAMBRIDGE_CRIME_CSV env) rows)
  ∧ (∀ rows, load_boston_crime env = Some rows →
       Forall2 (λ r o, crime_label o = PyStr.title <$> r !! "Crime"
                       ∧ macro_category o
                         = crime_label o ≫= (BOSTON_CRIME_MACROS env !!.))
               (BOSTON_CRIME_CSV env) rows)
  ∧ (∀ r, somerville_rows env r ≠ []
          ∧ Forall (λ o, crime_label o
                         = Some (PyStr.title (astype_str (r !! "Offense Type")))
                         ∧ macro_category o
                           = crime_label o ≫= (SOMERVILLE_CRIME_MACROS env !!.))
                   (somerville_rows env r))
  ∧ (is_Some (load_cambridge_crime env)
     ↔ Forall (λ r, is_Some (to_datetime_raise env
                               (PyStr.split_first <$> r !! "Crime Date Time")))
              (CAMBRIDGE_CRIME_CSV env))
  ∧ (is_Some (load_boston_crime env)
     ↔ Forall (λ r, is_Some (to_datetime_raise env
                               (PyStr.split_first <$> r !! "From Date")))
              (BOSTON_CRIME_CSV env)).
Proof.
  split; [|split; [|split; [|split]]].
  - intros rows Hrows%load_cambridge_crime_rows.
    eapply Forall2_impl; [exact Hrows|]. intros r o Ho. cbn beta in Ho.
    destruct (cambridge_record_fields env r o Ho) as (Hl & Hm & _).
    by rewrite Hl, Hm.
  - intros rows Hrows%load_boston_crime_rows.
    eapply Forall2_impl; [exact Hrows|]. intros r o Ho. cbn beta in Ho.
    destruct (boston_record_fields env r o Ho) as (Hl & Hm & _).
    by rewrite Hl, Hm.
  - intros r. split; [apply somerville_join_nonempty|].
    rewrite somerville_rows_spec. apply Forall_fmap, Forall_forall.
    intros nb _. cbn.
    destruct (somerville_emitted_fields env r nb) as (Hl & Hm & _).
    by rewrite Hl, Hm.
  - unfold load_cambridge_crime. rewrite mapM_is_Some.
    apply Forall_proper; [|done]. intros r. apply cambridge_record_is_Some.
  - unfold load_boston_crime. rewrite mapM_is_Some.
    apply Forall_proper; [|done]. intros r. apply boston_record_is_Some.
Qed.

End SourceLoaderClaims.

(** C5, on the sample data set: the Boston label is looked up in title
    case and found; the second Cambridge label is not in the table and its
    record is kept with a null category. *)
Lemma macro_category_sample :
  load_boston_crime sample_env = Some (default [] (load_boston_crime sample_env))
  ∧ Forall2 (λ r o, crime_label o = PyStr.title <$> r !! "Crime"
                    ∧ macro_category o
                      = crime_label o ≫= (BOSTON_CRIME_MACROS sample_env !!.))
            (BOSTON_CRIME_CSV sample_env) (default [] (load_boston_crime sample_env))
  ∧ column macro_category (load_boston_crime sample_env) = Some [Some "Property"].
Proof.
  assert (load_boston_crime sample_env
          = Some (default [] (load_boston_crime sample_env))) as Hrows
    by (vm_compute; reflexivity).
  split; [exact Hrows|]. split; [|vm_compute; reflexivity].
  exact (proj1 (proj2 (macro_category_is_table_lookup sample_env)) _ Hrows).
Defined.

(** C5 as stated fails for Cambridge: the upper-case label is looked up
    as it is, so the record has no category although the table has one for
    the label in title case. *)
Lemma macro_category_cambridge_raw_label :
  column crime_label (load_cambridge_crime upper_case_env) = Some [Some "LARCENY"]
  ∧ CAMBRIDGE_CRIME_MACROS upper_case_env !! PyStr.title "LARCENY" = Some "Property"
  ∧ column macro_category (load_cambridge_crime upper_case_env) = Some [None].
Proof. repeat split; vm_compute; reflexivity. Qed.

Section LabelClaims.
Context {G : Type} `{!Geometry G} (env : Env G).


End LabelClaims.



Section DateClaims.
Context {G : Type} `{!Geometry G} (env : Env G).
Implicit Types (r : text_row).



End DateClaims.


(** ** Canonical region names *)

Section GeoLoaderClaims.
Context {G : Type} `{!Geometry G} (env : Env G).
Implicit Types (f o : feature G).

Lemma attrs_set_attr_eq c v f : attrs (set_attr c v f) !! c = v.
Proof. destruct v; cbn; [apply lookup_insert_eq|apply lookup_delete_eq]. Qed.

Lemma attrs_set_attr_ne c c' v f :
  c ≠ c' → attrs (set_attr c v f) !! c' = attrs f !! c'.
Proof. intros ?. destruct v; cbn; [by apply lookup_insert_ne|by apply lookup_delete_ne]. Qed.

Lemma elem_of_assign_attr c v geo_df o :
  o ∈ features (assign_attr c v geo_df) →
  ∃ f, f ∈ features geo_df ∧ o = set_attr c (v f) f.
Proof.
  unfold assign_attr. cbn [features].
  intros (f & -> & Hf)%list_elem_of_fmap. by exists f.
Qed.

Lemma length_normalize_crs geo_df :
  length (features (normalize_crs geo_df)) = length (features geo_df).
Proof.
  unfold normalize_crs. case_bool_decide; [|done].
  unfold to_crs. cbn [features]. by rewrite length_fmap.
Qed.

(** C6 (as amended): every region of the loaded geometry is kept and gets
    a canonical name.  For Boston it is the name table's value for the raw
    region name when the table has one, and the raw name otherwise; for
    Cambridge it is the table's value when the table has one, and null
    otherwise (there is no fallback to the raw name); for Somerville, which
    has no table, it is the raw name. *)
Theorem canonical_region_names :
  (∀ o raw, o ∈ features (load_boston_geo env) →
     attrs o !! "blockgr202" = Some raw →
     attrs o !! "Mapped_Name"
     = Some (default raw (BOSTON_NEIGHBORHOOD_NAME_MAP env !! raw)))
  ∧ (∀ o raw, o ∈ features (load_cambridge_geo env) →
       attrs o !! "NAME" = Some raw →
       attrs o !! "Mapped_Name" = CAMBRIDGE_NEIGHBORHOOD_NAME_MAP env !! raw)
  ∧ (∀ o, o ∈ features (load_somerville_geo env) →
       attrs o !! "Mapped_Name" = attrs o !! "NBHD")
  ∧ length (features (load_boston_geo env))
    = length (features (BOSTON_SHAPEFILE env))
  ∧ length (features (load_cambridge_geo env))
    = length (features (CAMBRIDGE_SHAPEFILE env))
  ∧ length (features (load_somerville_geo env))
    = length (features (SOMERVILLE_SHAPEFILE env)).
Proof.
  split; [|split; [|split; [|split; [|split]]]].
  - intros o raw (f & _ & ->)%elem_of_assign_attr.
    rewrite attrs_set_attr_eq, attrs_set_attr_ne by done.
    intros ->. unfold map_fillna. cbn [mbind option_bind].
    by destruct (BOSTON_NEIGHBORHOOD_NAME_MAP env !! raw).
  - intros o raw (f & _ & ->)%elem_of_assign_attr.
    rewrite attrs_set_attr_eq, attrs_set_attr_ne by done.
    by intros ->.
  - intros o (f & _ & ->)%elem_of_assign_attr.
    by rewrite attrs_set_attr_eq, attrs_set_attr_ne.
  - unfold load_boston_geo, assign_attr. cbn [features].
    by rewrite length_fmap, length_normalize_crs.
  - unfold load_cambridge_geo, assign_attr. cbn [features].
    by rewrite length_fmap, length_normalize_crs.
  - unfold load_somerville_geo, assign_attr. cbn [features].
    by rewrite length_fmap, length_normalize_crs.
Qed.

End GeoLoaderClaims.

(** C6, on the sample data set: the Boston region whose raw name is not
    in the table keeps it as canonical name. *)
Lemma canonical_region_names_sample :
  ∃ o, features (load_boston_geo sample_env) !! 1%nat = Some o
       ∧ attrs o !! "blockgr202" = Some "Allston"
       ∧ BOSTON_NEIGHBORHOOD_NAME_MAP sample_env !! "Allston" = None
       ∧ attrs o !! "Mapped_Name" = Some "Allston".
Proof.
  destruct (canonical_region_names sample_env) as (Hboston & _).
  destruct (features (load_boston_geo sample_env) !! 1%nat) as [o|] eqn:Ho;
    [|vm_compute in Ho; discriminate Ho].
  assert (attrs o !! "blockgr202" = Some "Allston") as Hraw.
  { vm_compute in Ho. injection Ho as <-. vm_compute. reflexivity. }
  assert (BOSTON_NEIGHBORHOOD_NAME_MAP sample_env !! "Allston" = None) as Hnone
    by (vm_compute; reflexivity).
  exists o. split; [reflexivity|]. split; [exact Hraw|]. split; [exact Hnone|].
  rewrite (Hboston o "Allston" (list_elem_of_lookup_2 _ _ _ Ho) Hraw), Hnone.
  reflexivity.
Defined.

(** C6 as stated fails for Cambridge: the region whose raw name is not in
    the table gets a null canonical name, not its raw name. *)
Lemma canonical_region_names_cambridge_unmapped :
  ((λ o, (attrs o !! "NAME", attrs o !! "Mapped_Name"))
     <$> features (load_cambridge_geo sample_env))
  = [(Some "The Port", Some "Area 4"); (Some "Riverside", None)]
  ∧ CAMBRIDGE_NEIGHBORHOOD_NAME_MAP sample_env !! "Riverside" = None.
Proof. split; vm_compute; reflexivity. Qed.

(** ** Block identifiers *)

Lemma drop_while_spec (p : ascii → bool) (l : list ascii) :
  l = (PyStr.take_while p l ++ PyStr.drop_while p l)%list
  ∧ Forall (λ c, p c = true) (PyStr.take_while p l)
  ∧ ∀ c, head (PyStr.drop_while p l) = Some c → p c = false.
Proof.
  induction l as [|a l (IHeq & IHall & IHhead)]; [by repeat split|].
  cbn. destruct (p a) eqn:Hp.
  - split; [cbn; by f_equal|]. split; [by constructor|done].
  - split; [done|]. split; [constructor|]. cbn. by intros c [= <-].
Qed.

Lemma rev_is_reverse {A} (l : list A) : rev l = reverse l.
Proof. unfold reverse. apply rev_alt. Qed.

Lemma to_list_of_list (l : list ascii) : PyStr.to_list (PyStr.of_list l) = l.
Proof. apply list_ascii_of_string_of_list_ascii. Qed.

Section BlockCodeClaims.
Context {G : Type} `{!Geometry G} (env : Env G).

(** C9: on the identifier ["1500.0"] the loader's trim gives ["15"]; the
    trim is textual: the normalised block code of every row is its text
    without its longest suffix made of the characters ['.'] and ['0'],
    whatever digits that removes. *)
Theorem block_code_textual_trim :
  PyStr.rstrip ".0" "1500.0" = "15"
  ∧ (∀ r, text (somerville_record env r !! "Block Code")
          = Some (PyStr.rstrip ".0" (astype_str (r !! "Block Code"))))
  ∧ (∀ s, ∃ suffix,
       PyStr.to_list s = (PyStr.to_list (PyStr.rstrip ".0" s) ++ suffix)%list
       ∧ Forall (λ c, c = "."%char ∨ c = "0"%char) suffix
       ∧ ∀ c, last (PyStr.to_list (PyStr.rstrip ".0" s)) = Some c →
              c ≠ "."%char ∧ c ≠ "0"%char).
Proof.
  split; [reflexivity|]. split; [intros r; apply somerville_block_code|].
  intros s. unfold PyStr.rstrip, PyStr.rstrip_by. rewrite to_list_of_list.
  destruct (drop_while_spec (PyStr.mem_chars ".0") (rev (PyStr.to_list s)))
    as (Heq & Hall & Hhead).
  exists (rev (PyStr.take_while (PyStr.mem_chars ".0") (rev (PyStr.to_list s)))).
  split; [|split].
  - rewrite <-rev_app_distr, <-Heq. by rewrite rev_involutive.
  - apply Forall_forall. intros c Hc.
    rewrite rev_is_reverse, elem_of_reverse in Hc.
    rewrite Forall_forall in Hall. specialize (Hall c Hc).
    unfold PyStr.mem_chars in Hall. apply bool_decide_eq_true in Hall.
    cbn in Hall. set_solver.
  - intros c Hc. rewrite rev_is_reverse, last_reverse in Hc.
    specialize (Hhead c Hc). unfold PyStr.mem_chars in Hhead.
    apply bool_decide_eq_false in Hhead. cbn in Hhead. set_solver.
Qed.

End BlockCodeClaims.

(** C9, on the sample data set: the block code of the assault row loses
    its [".0"], and ["1500.0"] loses its two zero digits as well. *)
Lemma block_code_trim_sample :
  text (somerville_record sample_env assault_row !! "Block Code")
  = Some "250173501001"
  ∧ ∃ suffix,
      PyStr.to_list "1500.0" = (PyStr.to_list (PyStr.rstrip ".0" "1500.0") ++ suffix)%list
      ∧ Forall (λ c, c = "."%char ∨ c = "0"%char) suffix
      ∧ ∀ c, last (PyStr.to_list (PyStr.rstrip ".0" "1500.0")) = Some c →
             c ≠ "."%char ∧ c ≠ "0"%char.
Proof.
  destruct (block_code_textual_trim sample_env) as (_ & Hcode & Htrim).
  split; [|exact (Htrim "1500.0")].
  rewrite (Hcode assault_row). vm_compute. reflexivity.
Defined.

(** * Further properties of the loaders and bundles *)

(** ** Geometry frames *)

Section GeoFrames.
Context {G : Type} `{!Geometry G} (env : Env G).
Implicit Types (geo_df : GeoDataFrame G) (f o : feature G).

Lemma normalize_crs_cases geo_df :
  (crs geo_df = "EPSG:4326" ∧ normalize_crs geo_df = geo_df)
  ∨ (crs geo_df ≠ "EPSG:4326" ∧ normalize_crs geo_df = to_crs "EPSG:4326" geo_df).
Proof.
  unfold normalize_crs.
  destruct (bool_decide (crs geo_df ≠ "EPSG:4326")) eqn:Hb.
  - apply bool_decide_eq_true in Hb. by right.
  - apply bool_decide_eq_false in Hb. left. split; [|done].
    destruct (decide (crs geo_df = "EPSG:4326")) as [Heq|Hne]; [exact Heq|].
    by destruct Hb.
Qed.

Lemma crs_normalize_crs geo_df : crs (normalize_crs geo_df) = "EPSG:4326".
Proof. by destruct (normalize_crs_cases geo_df) as [[Hc ->]|[Hc ->]]. Qed.

Lemma features_normalize_crs geo_df :
  Forall2 (λ f o, attrs o = attrs f
                  ∧ geometry o
                    = if bool_decide (crs geo_df = "EPSG:4326") then geometry f
                      else reproject (crs geo_df) "EPSG:4326" (geometry f))
          (features geo_df) (features (normalize_crs geo_df)).
Proof.
  destruct (normalize_crs_cases geo_df) as [[Hc ->]|[Hc ->]].
  - rewrite bool_decide_eq_true_2 by done.
    apply Forall_Forall2_diag, Forall_forall. by intros f _.
  - rewrite bool_decide_eq_false_2 by done.
    unfold to_crs. cbn [features].
    apply Forall2_fmap_r, Forall_Forall2_diag, Forall_forall. by intros f _.
Qed.

Lemma assign_attr_loaded_from (c : string) (v : feature G → option string) geo_df :
  Forall2 (loaded_from (crs geo_df) c)
          (features geo_df) (features (assign_attr c v (normalize_crs geo_df))).
Proof.
  unfold assign_attr. cbn [features]. apply Forall2_fmap_r.
  eapply Forall2_impl; [apply features_normalize_crs|].
  intros f o (Hattrs & Hgeom). split; [|exact Hgeom].
  intros c' Hc'. rewrite attrs_set_attr_ne by done. by rewrite Hattrs.
Qed.

(** X1: every geo loader returns a frame in EPSG:4326 that has the regions
    of its shapefile, in order, each with its attributes kept (the assigned
    [Mapped_Name] apart) and its geometry reprojected exactly when the file
    is in another reference system. *)
Theorem geo_loaders_keep_regions :
  crs (load_cambridge_geo env) = "EPSG:4326"
  ∧ crs (load_boston_geo env) = "EPSG:4326"
  ∧ crs (load_somerville_geo env) = "EPSG:4326"
  ∧ Forall2 (loaded_from (crs (CAMBRIDGE_SHAPEFILE env)) "Mapped_Name")
            (features (CAMBRIDGE_SHAPEFILE env)) (features (load_cambridge_geo env))
  ∧ Forall2 (loaded_from (crs (BOSTON_SHAPEFILE env)) "Mapped_Name")
            (features (BOSTON_SHAPEFILE env)) (features (load_boston_geo env))
  ∧ Forall2 (loaded_from (crs (SOMERVILLE_SHAPEFILE env)) "Mapped_Name")
            (features (SOMERVILLE_SHAPEFILE env)) (features (load_somerville_geo env)).
Proof.
  repeat split; try apply crs_normalize_crs; apply assign_attr_loaded_from.
Qed.

Lemma geo_loaders_keep_lengths :
  length (features (load_cambridge_geo env)) = length (features (CAMBRIDGE_SHAPEFILE env))
  ∧ length (features (load_boston_geo env)) = length (features (BOSTON_SHAPEFILE env))
  ∧ length (features (load_somerville_geo env))
    = length (features (SOMERVILLE_SHAPEFILE env)).
Proof.
  repeat split; symmetry; eapply Forall2_length, assign_attr_loaded_from.
Qed.

End GeoFrames.

(** X1, on the sample data set: the Cambridge file is in EPSG:4326 and its
    two regions are loaded with their geometry untouched. *)
Lemma geo_loaders_sample :
  crs (CAMBRIDGE_SHAPEFILE sample_env) = "EPSG:4326"
  ∧ Forall2 (loaded_from (crs (CAMBRIDGE_SHAPEFILE sample_env)) "Mapped_Name")
            (features (CAMBRIDGE_SHAPEFILE sample_env))
            (features (load_cambridge_geo sample_env))
  ∧ (geometry <$> features (load_cambridge_geo sample_env))
    = [mkrect 0 0 2 2; mkrect 2 0 4 2].
Proof.
  split; [reflexivity|]. split; [|vm_compute; reflexivity].
  exact (proj1 (proj2 (proj2 (proj2 (geo_loaders_keep_regions sample_env))))).
Defined.

(** ** The all-metro bundle *)

Section AllMetro.
Context {G : Type} `{!Geometry G} (env : Env G).
Implicit Types (m : Bundle G) (o g : feature G).

Lemma get_all_metro_bundle_Some m :
  get_all_metro_bundle env = Some m →
  ∃ rows_c rows_b p,
    load_cambridge_crime env = Some rows_c
    ∧ load_boston_crime env = Some rows_b
    ∧ load_boston_population env = Some p
    ∧ geo m
      = mkgeo "EPSG:4326"
          ((set_attr "City" (Some "Cambridge") <$> features (load_cambridge_geo env))
           ++ (set_attr "City" (Some "Boston") <$> features (load_boston_geo env))
           ++ (set_attr "City" (Some "Somerville") <$> features (load_somerville_geo env)))%list
    ∧ population m
      = _build_area_weighted_population (load_somerville_geo env)
          (SOMERVILLE_TOTAL_POP_2022 env)
        ∪ (kmap Some p ∪ kmap Some (CAMBRIDGE_POP_2020 env)).
Proof.
  unfold get_all_metro_bundle, get_cambridge_bundle, get_boston_bundle,
    get_somerville_bundle.
  destruct (load_cambridge_crime env) as [rows_c|]; [|done].
  destruct (load_boston_crime env) as [rows_b|]; [|done].
  destruct (load_boston_population env) as [p|]; [|done].
  cbn [mbind option_bind]. intros Hm. apply (inj Some) in Hm. subst m.
  cbn [geo population crime].
  exists rows_c, rows_b, p. repeat split; try done.
  unfold concat, assign_attr. cbn [features crs mjoin list_join].
  rewrite app_nil_r. f_equal.
  change (crs (load_cambridge_geo env))
    with (crs (normalize_crs (CAMBRIDGE_SHAPEFILE env))).
  apply crs_normalize_crs.
Qed.

(** X2: in the all-metro bundle the geometry frame is in EPSG:4326 and
    lists the Cambridge regions, then the Boston regions, then the Somerville
    regions; each is the loaded region of its city with the [City] column
    set to the city's name and nothing else changed. *)
Theorem all_metro_geo_is_tagged_concatenation m :
  get_all_metro_bundle env = Some m →
  crs (geo m) = "EPSG:4326"
  ∧ ((λ o, attrs o !! "City") <$> features (geo m))
    = (replicate (length (features (CAMBRIDGE_SHAPEFILE env))) (Some "Cambridge")
       ++ replicate (length (features (BOSTON_SHAPEFILE env))) (Some "Boston")
       ++ replicate (length (features (SOMERVILLE_SHAPEFILE env))) (Some "Somerville"))%list
  ∧ Forall2 (λ g o, geometry o = geometry g
                    ∧ ∀ c, c ≠ "City" → attrs o !! c = attrs g !! c)
            (features (load_cambridge_geo env) ++ features (load_boston_geo env)
             ++ features (load_somerville_geo env))%list
            (features (geo m)).
Proof.
  intros (rows_c & rows_b & p & _ & _ & _ & -> & _)%get_all_metro_bundle_Some.
  split; [reflexivity|]. cbn [features].
  assert (∀ (city : string) (l : list (feature G)),
            (λ o, attrs o !! "City") <$> (set_attr "City" (Some city) <$> l)
            = replicate (length l) (Some city)) as Htag.
  { intros city l. induction l as [|g l IH]; [done|].
    cbn [fmap list_fmap length replicate]. f_equal; [|exact IH].
    apply attrs_set_attr_eq. }
  destruct (geo_loaders_keep_lengths env) as (Hc & Hb & Hs).
  split.
  - rewrite !fmap_app, !Htag. by rewrite Hc, Hb, Hs.
  - repeat apply Forall2_app;
      apply Forall2_fmap_r, Forall_Forall2_diag, Forall_forall;
      (intros g _; split; [done|]; intros c Hc'; by apply attrs_set_attr_ne).
Qed.

(** X3: the all-metro population table is the three cities' tables merged
    with the later city winning: a name is looked up in the Somerville
    table first, then in the Boston table, then in the Cambridge table.
    Only the Somerville table can hold a null name. *)
Theorem all_metro_population_later_city_wins m :
  get_all_metro_bundle env = Some m →
  ∃ p, load_boston_population env = Some p
       ∧ (∀ name,
            population m !! Some name
            = match _build_area_weighted_population (load_somerville_geo env)
                      (SOMERVILLE_TOTAL_POP_2022 env) !! Some name with
              | Some v => Some v
              | None =>
                  match p !! name with
                  | Some v => Some v
                  | None => CAMBRIDGE_POP_2020 env !! name
                  end
              end)
       ∧ population m !! None
         = _build_area_weighted_population (load_somerville_geo env)
             (SOMERVILLE_TOTAL_POP_2022 env) !! None.
Proof.
  intros (rows_c & rows_b & p & _ & _ & Hp & _ & ->)%get_all_metro_bundle_Some.
  exists p. split; [exact Hp|]. split.
  - intros name. rewrite !lookup_union, !lookup_kmap by apply _.
    destruct (_ !! Some name), (p !! name), (CAMBRIDGE_POP_2020 env !! name); done.
  - rewrite !lookup_union.
    assert (∀ q : gmap string Q, kmap (M2 := gmap (option string)) Some q !! None = None)
      as Hnone.
    { intros q. apply lookup_kmap_None; [apply _|]. by intros i [=]. }
    rewrite !Hnone. by destruct (_ !! None).
Qed.

End AllMetro.

(** X2, on the sample data set: six regions, tagged city by city. *)
Lemma all_metro_geo_sample :
  get_all_metro_bundle sample_env = Some sample_metro
  ∧ ((λ o, attrs o !! "City") <$> features (geo sample_metro))
    = [Some "Cambridge"; Some "Cambridge"; Some "Boston"; Some "Boston";
       Some "Somerville"; Some "Somerville"].
Proof.
  assert (get_all_metro_bundle sample_env = Some sample_metro) as Hm
    by (vm_compute; reflexivity).
  split; [exact Hm|].
  rewrite (proj1 (proj2 (all_metro_geo_is_tagged_concatenation sample_env _ Hm))).
  reflexivity.
Defined.

(** X3, on the sample data set: Allston is found in the Boston table. *)
Lemma all_metro_population_sample :
  get_all_metro_bundle sample_env = Some sample_metro
  ∧ population sample_metro !! Some "Allston" = Some 19000%Q.
Proof.
  assert (get_all_metro_bundle sample_env = Some sample_metro) as Hm
    by (vm_compute; reflexivity).
  split; [exact Hm|].
  destruct (all_metro_population_later_city_wins sample_env _ Hm)
    as (p & Hp & Hname & _).
  rewrite (Hname "Allston").
  change (load_boston_population sample_env)
    with (Some ({[ "Allston" := 19000%Q; "Seaport" := 4000%Q ]} : gmap string Q)) in Hp.
  apply (inj Some) in Hp. subst p. vm_compute. reflexivity.
Defined.

(** ** Failure of a loader *)

Section Failures.
Context {G : Type} `{!Geometry G} (env : Env G).

Lemma mapM_None_of_elem {A B} (f : A → option B) (l : list A) (a : A) :
  a ∈ l → f a = None → mapM f l = None.
Proof.
  intros Ha Hf. destruct (mapM f l) as [k|] eqn:Hk; [|done].
  assert (is_Some (mapM f l)) as Hsome by eauto.
  rewrite mapM_is_Some, Forall_forall in Hsome.
  destruct (Hsome a Ha) as [b Hb]. congruence.
Qed.

(** X4: one Cambridge row whose date text (the cell up to its first space)
    the parser rejects makes the Cambridge loader fail, and with it the
    Cambridge bundle and the all-metro bundle, whatever the other rows are;
    the Somerville bundle is still produced. *)
Theorem malformed_cambridge_date_fails_bundles r s municipality :
  r ∈ CAMBRIDGE_CRIME_CSV env →
  r !! "Crime Date Time" = Some s →
  to_datetime env (PyStr.split_first s) = None →
  municipality ≠ "Boston" →
  municipality ≠ "Somerville" →
  load_cambridge_crime env = None
  ∧ get_bundle env municipality = None
  ∧ is_Some (get_bundle env "Somerville").
Proof.
  intros Hr Hs Hparse Hb Hsom.
  assert (load_cambridge_crime env = None) as Hload.
  { unfold load_cambridge_crime. apply (mapM_None_of_elem _ _ r Hr).
    destruct (cambridge_record env r) as [o|] eqn:Ho; [|done].
    assert (is_Some (cambridge_record env r)) as Hsome by eauto.
    apply cambridge_record_is_Some in Hsome. rewrite Hs in Hsome.
    cbn in Hsome. rewrite Hparse in Hsome. by destruct Hsome. }
  split; [exact Hload|]. split.
  - unfold get_bundle.
    rewrite (bool_decide_eq_false_2 _ Hb), (bool_decide_eq_false_2 _ Hsom).
    unfold get_all_metro_bundle, get_cambridge_bundle. rewrite Hload.
    by case_bool_decide.
  - unfold get_bundle, get_somerville_bundle. cbn. eauto.
Qed.

End Failures.

(** X4, on a table whose second row is dated ["yesterday"]. *)
Lemma malformed_cambridge_date_sample :
  to_datetime malformed_date_env (PyStr.split_first "yesterday 11:45") = None
  ∧ get_bundle malformed_date_env "Cambridge" = None
  ∧ get_bundle malformed_date_env "Metro" = None.
Proof.
  assert (to_datetime malformed_date_env (PyStr.split_first "yesterday 11:45") = None)
    as Hparse by (vm_compute; reflexivity).
  assert (({[ "Crime Date Time" := "yesterday 11:45"; "Crime" := "Larceny" ]} : text_row)
          ∈ CAMBRIDGE_CRIME_CSV malformed_date_env) as Hr
    by (apply list_elem_of_lookup; exists 1%nat; reflexivity).
  assert (({[ "Crime Date Time" := "yesterday 11:45"; "Crime" := "Larceny" ]} : text_row)
          !! "Crime Date Time" = Some "yesterday 11:45") as Hs
    by (vm_compute; reflexivity).
  split; [exact Hparse|]. split.
  - refine (proj1 (proj2 (malformed_cambridge_date_fails_bundles
                            malformed_date_env _ _ "Cambridge" Hr Hs Hparse _ _)));
      discriminate.
  - refine (proj1 (proj2 (malformed_cambridge_date_fails_bundles
                            malformed_date_env _ _ "Metro" Hr Hs Hparse _ _)));
      discriminate.
Defined.

(** ** Columns of the emitted records *)

Section RecordColumns.
Context {G : Type} `{!Geometry G} (env : Env G).
Implicit Types (r : text_row) (o : row G).

Lemma cambridge_record_columns r o :
  cambridge_record env r = Some o →
  (∀ c, c ∈ ["Crime Date Time"; "Crime"; "Neighborhood"; "Reporting Area"] →
        o !! c = Str <$> r !! c)
  ∧ (∀ c, is_Some (o !! c) →
          c ∈ ["Crime Date Time"; "Crime"; "Neighborhood"; "Reporting Area";
               "Date"; "Macro Crime"]).
Proof.
  unfold cambridge_record. cbv zeta.
  destruct (to_datetime_raise _ _) as [d|]; [|done].
  cbn [mbind option_bind]. intros Ho. apply (inj Some) in Ho. subst o. split.
  - intros c Hc. repeat (apply elem_of_cons in Hc as [->|Hc]); [..|by apply elem_of_nil in Hc];
      by row_lookups.
  - intros c Hsome.
    destruct (decide (c = "Macro Crime")) as [->|?]; [column_name|].
    destruct (decide (c = "Date")) as [->|?]; [column_name|].
    rewrite !lookup_set_col_ne, lookup_fmap, lookup_select in Hsome by done.
    case_decide as Hc; [|by destruct Hsome]. clear Hsome.
    repeat (apply elem_of_cons in Hc as [->|Hc]); [column_name..|by apply elem_of_nil in Hc].
Qed.

Lemma boston_record_columns r o :
  boston_record env r = Some o →
  (∀ c, c ∈ ["From Date"; "Neighborhood"; "BPD District"] → o !! c = Str <$> r !! c)
  ∧ text (o !! "Mapped_Neighborhood")
    = (λ n, default n (BOSTON_NEIGHBORHOOD_NAME_MAP env !! n)) <$> r !! "Neighborhood"
  ∧ (∀ c, is_Some (o !! c) →
          c ∈ ["From Date"; "Crime"; "Neighborhood"; "BPD District";
               "Date"; "Macro Crime"; "Mapped_Neighborhood"]).
Proof.
  unfold boston_record. cbv zeta.
  destruct (to_datetime_raise _ _) as [d|]; [|done].
  cbn [mbind option_bind]. intros Ho. apply (inj Some) in Ho. subst o.
  split; [|split].
  - intros c Hc. repeat (apply elem_of_cons in Hc as [->|Hc]); [..|by apply elem_of_nil in Hc];
      by row_lookups.
  - row_lookups. unfold map_fillna.
    destruct (r !! "Neighborhood") as [n|]; [|done]. cbn.
    by destruct (BOSTON_NEIGHBORHOOD_NAME_MAP env !! n).
  - intros c Hsome.
    destruct (decide (c = "Mapped_Neighborhood")) as [->|?]; [column_name|].
    destruct (decide (c = "Macro Crime")) as [->|?]; [column_name|].
    destruct (decide (c = "Crime")) as [->|?]; [column_name|].
    destruct (decide (c = "Date")) as [->|?]; [column_name|].
    rewrite !lookup_set_col_ne, lookup_fmap, lookup_select in Hsome by done.
    case_decide as Hc; [|by destruct Hsome]. clear Hsome.
    repeat (apply elem_of_cons in Hc as [->|Hc]); [column_name..|by apply elem_of_nil in Hc].
Qed.

(** X5: the Cambridge and Boston loaders keep one record per row, in order;
    a record carries the raw cells of the selected columns unchanged (for
    Boston the crime label apart, which is title-cased) and has no column
    besides the selected and the derived ones: any other column of the
    table is dropped. *)
Theorem cambridge_boston_record_columns :
  (∀ rows, load_cambridge_crime env = Some rows →
     Forall2 (λ r o,
                (∀ c, c ∈ ["Crime Date Time"; "Crime"; "Neighborhood"; "Reporting Area"] →
                      o !! c = Str <$> r !! c)
                ∧ (∀ c, is_Some (o !! c) →
                        c ∈ ["Crime Date Time"; "Crime"; "Neighborhood";
                             "Reporting Area"; "Date"; "Macro Crime"]))
             (CAMBRIDGE_CRIME_CSV env) rows)
  ∧ (∀ rows, load_boston_crime env = Some rows →
       Forall2 (λ r o,
                  (∀ c, c ∈ ["From Date"; "Neighborhood"; "BPD District"] →
                        o !! c = Str <$> r !! c)
                  ∧ (∀ c, is_Some (o !! c) →
                          c ∈ ["From Date"; "Crime"; "Neighborhood"; "BPD District";
                               "Date"; "Macro Crime"; "Mapped_Neighborhood"]))
               (BOSTON_CRIME_CSV env) rows).
Proof.
  split.
  - intros rows Hrows%load_cambridge_crime_rows.
    eapply Forall2_impl; [exact Hrows|]. intros r o Ho.
    by apply cambridge_record_columns.
  - intros rows Hrows%load_boston_crime_rows.
    eapply Forall2_impl; [exact Hrows|]. intros r o Ho. cbn beta in Ho.
    destruct (boston_record_columns r o Ho) as (Hraw & _ & Hcols). by split.
Qed.

(** X6: in the Boston loader the mapped neighborhood of a record is the
    name table's value for the raw neighborhood when the table has one, the
    raw neighborhood itself when it has none, and null when the raw cell is
    empty; the raw neighborhood column is kept as it is. *)
Theorem boston_mapped_neighborhood rows :
  load_boston_crime env = Some rows →
  Forall2 (λ r o,
             text (o !! "Mapped_Neighborhood")
             = (λ n, default n (BOSTON_NEIGHBORHOOD_NAME_MAP env !! n))
                 <$> r !! "Neighborhood"
             ∧ neighborhood o = r !! "Neighborhood")
          (BOSTON_CRIME_CSV env) rows.
Proof.
  intros Hrows%load_boston_crime_rows.
  eapply Forall2_impl; [exact Hrows|]. intros r o Ho. cbn beta in Ho.
  destruct (boston_record_columns r o Ho) as (_ & Hmapped & _).
  destruct (boston_record_fields env r o Ho) as (_ & _ & Hn & _). by split.
Qed.

(** X7: a record of the Somerville loader has no column besides [Date],
    [Crime], [Macro Crime] and [Neighborhood]: the offense type, the block
    code, the block geometry and the join's bookkeeping columns never reach
    the output. *)
Theorem somerville_record_columns_only o c :
  o ∈ load_somerville_crime env →
  is_Some (o !! c) →
  c ∈ ["Date"; "Crime"; "Macro Crime"; "Neighborhood"].
Proof.
  intros (r & nb & _ & ->)%load_somerville_crime_rows Hsome.
  unfold somerville_emitted in Hsome.
  destruct (decide (c = "Neighborhood")) as [->|?]; [column_name|].
  rewrite lookup_set_col_ne, lookup_select in Hsome by done.
  case_decide as Hc; [|by destruct Hsome]. clear Hsome.
  repeat (apply elem_of_cons in Hc as [->|Hc]); [column_name..|by apply elem_of_nil in Hc].
Qed.

End RecordColumns.

(** The sample Cambridge and Boston tables load. *)
Lemma sample_cambridge_rows :
  load_cambridge_crime sample_env
  = Some (default [] (load_cambridge_crime sample_env)).
Proof. vm_compute. reflexivity. Qed.

Lemma sample_boston_rows :
  load_boston_crime sample_env = Some (default [] (load_boston_crime sample_env)).
Proof. vm_compute. reflexivity. Qed.

(** X5, on the sample data set: the Cambridge records keep their raw
    cells. *)
Lemma cambridge_boston_record_columns_sample :
  load_cambridge_crime sample_env
  = Some (default [] (load_cambridge_crime sample_env))
  ∧ Forall2 (λ r o,
               (∀ c, c ∈ ["Crime Date Time"; "Crime"; "Neighborhood"; "Reporting Area"] →
                     o !! c = Str <$> r !! c)
               ∧ (∀ c, is_Some (o !! c) →
                       c ∈ ["Crime Date Time"; "Crime"; "Neighborhood";
                            "Reporting Area"; "Date"; "Macro Crime"]))
            (CAMBRIDGE_CRIME_CSV sample_env)
            (default [] (load_cambridge_crime sample_env)).
Proof.
  pose proof sample_cambridge_rows as Hrows.
  split; [exact Hrows|].
  exact (proj1 (cambridge_boston_record_columns sample_env) _ Hrows).
Defined.

(** X6, on the sample data set: South Boston Waterfront is mapped to
    Seaport. *)
Lemma boston_mapped_neighborhood_sample :
  load_boston_crime sample_env = Some (default [] (load_boston_crime sample_env))
  ∧ Forall2 (λ r o,
               text (o !! "Mapped_Neighborhood")
               = (λ n, default n (BOSTON_NEIGHBORHOOD_NAME_MAP sample_env !! n))
                   <$> r !! "Neighborhood"
               ∧ neighborhood o = r !! "Neighborhood")
            (BOSTON_CRIME_CSV sample_env) (default [] (load_boston_crime sample_env))
  ∧ column (λ o, text (o !! "Mapped_Neighborhood")) (load_boston_crime sample_env)
    = Some [Some "Seaport"].
Proof.
  pose proof sample_boston_rows as Hrows.
  split; [exact Hrows|]. split; [|vm_compute; reflexivity].
  exact (boston_mapped_neighborhood sample_env _ Hrows).
Defined.

(** X7, on the sample data set: the first Somerville record has a crime
    label, and [Crime] is one of the four columns. *)
Lemma somerville_record_columns_sample :
  load_somerville_crime sample_env !! 0%nat
  = Some (default ∅ (load_somerville_crime sample_env !! 0%nat))
  ∧ is_Some (default ∅ (load_somerville_crime sample_env !! 0%nat) !! "Crime")
  ∧ "Crime" ∈ ["Date"; "Crime"; "Macro Crime"; "Neighborhood"].
Proof.
  assert (load_somerville_crime sample_env !! 0%nat
          = Some (default ∅ (load_somerville_crime sample_env !! 0%nat))) as Ho
    by (vm_compute; reflexivity).
  assert (is_Some (default ∅ (load_somerville_crime sample_env !! 0%nat) !! "Crime"))
    as Hc by (vm_compute; eexists; reflexivity).
  split; [exact Ho|]. split; [exact Hc|].
  exact (somerville_record_columns_only sample_env _ "Crime"
           (list_elem_of_lookup_2 _ _ _ Ho) Hc).
Defined.

(** ** Dates of the Cambridge and Boston records *)

Lemma of_list_app (l k : list ascii) :
  PyStr.of_list (l ++ k) = PyStr.of_list l +:+ PyStr.of_list k.
Proof.
  unfold PyStr.of_list. induction l as [|a l IH]; [done|].
  simpl. by rewrite IH.
Qed.

Lemma of_list_to_list (s : string) : PyStr.of_list (PyStr.to_list s) = s.
Proof. apply string_of_list_ascii_of_string. Qed.

Lemma take_while_all (p : ascii → bool) (l : list ascii) :
  Forall (λ c, p c = true) (PyStr.take_while p l).
Proof. apply (drop_while_spec p l). Qed.

(** [s.split(" ")[0]] has no space, and [s] is it, or it followed by a
    space and the rest. *)
Lemma split_first_spec (s : string) :
  Forall (λ c, c ≠ " "%char) (PyStr.to_list (PyStr.split_first s))
  ∧ (s = PyStr.split_first s
     ∨ ∃ rest, s = (PyStr.split_first s +:+ " " +:+ rest)).
Proof.
  unfold PyStr.split_first. rewrite to_list_of_list.
  set (p := λ c : ascii, negb (bool_decide (c = " "%char))).
  destruct (drop_while_spec p (PyStr.to_list s)) as (Heq & Hall & Hhead).
  split.
  - eapply Forall_impl; [exact Hall|]. intros c Hc ->.
    unfold p in Hc. by rewrite bool_decide_eq_true_2 in Hc.
  - destruct (PyStr.drop_while p (PyStr.to_list s)) as [|c rest] eqn:Hd.
    + left. rewrite app_nil_r in Heq. by rewrite <-Heq, of_list_to_list.
    + right. exists (PyStr.of_list rest).
      specialize (Hhead c eq_refl). unfold p in Hhead.
      apply negb_false_iff, bool_decide_eq_true in Hhead. subst c.
      rewrite <-(of_list_to_list s) at 1. rewrite Heq at 1.
      by rewrite of_list_app.
Qed.

Section Dates.
Context {G : Type} `{!Geometry G} (env : Env G).

Lemma to_datetime_raise_date_of_cell (v : option string) (d : option (cell G)) :
  to_datetime_raise env (PyStr.split_first <$> v) = Some d → date_of_cell env v d.
Proof.
  unfold to_datetime_raise, date_of_cell. destruct v as [s|]; cbn.
  - destruct (to_datetime env _) as [[t|]|]; by intros [= <-].
  - by intros [= <-].
Qed.

(** X8: the date of a Cambridge or Boston record is what the parser makes
    of its date-time cell up to the first space, so the time of day plays no
    part; an empty cell gives a null date, and no record is emitted for a
    text the parser rejects. *)
Theorem cambridge_boston_date_is_first_token :
  (∀ rows, load_cambridge_crime env = Some rows →
     Forall2 (λ r o, date_of_cell env (r !! "Crime Date Time") (o !! "Date"))
             (CAMBRIDGE_CRIME_CSV env) rows)
  ∧ (∀ rows, load_boston_crime env = Some rows →
       Forall2 (λ r o, date_of_cell env (r !! "From Date") (o !! "Date"))
               (BOSTON_CRIME_CSV env) rows)
  ∧ (∀ s, Forall (λ c, c ≠ " "%char) (PyStr.to_list (PyStr.split_first s))
          ∧ (s = PyStr.split_first s
             ∨ ∃ rest, s = (PyStr.split_first s +:+ " " +:+ rest))).
Proof.
  split; [|split; [|apply split_first_spec]].
  - intros rows Hrows%load_cambridge_crime_rows.
    eapply Forall2_impl; [exact Hrows|]. intros r o Ho. cbn beta in Ho.
    destruct (cambridge_record_fields env r o Ho) as (_ & _ & _ & Hd).
    by apply to_datetime_raise_date_of_cell.
  - intros rows Hrows%load_boston_crime_rows.
    eapply Forall2_impl; [exact Hrows|]. intros r o Ho. cbn beta in Ho.
    destruct (boston_record_fields env r o Ho) as (_ & _ & _ & Hd).
    by apply to_datetime_raise_date_of_cell.
Qed.

End Dates.

(** X8, on the sample data set: the Cambridge records are dated January 2
    and March 4, 2020. *)
Lemma cambridge_boston_date_sample :
  load_cambridge_crime sample_env
  = Some (default [] (load_cambridge_crime sample_env))
  ∧ Forall2 (λ r o, date_of_cell sample_env (r !! "Crime Date Time") (o !! "Date"))
            (CAMBRIDGE_CRIME_CSV sample_env)
            (default [] (load_cambridge_crime sample_env))
  ∧ column record_date (load_cambridge_crime sample_env)
    = Some [Some (mkdate 2020 1 2); Some (mkdate 2020 3 4)].
Proof.
  pose proof sample_cambridge_rows as Hrows.
  split; [exact Hrows|]. split; [|vm_compute; reflexivity].
  exact (proj1 (cambridge_boston_date_is_first_token sample_env) _ Hrows).
Defined.

(** ** Title case *)

Lemma is_cased_to_upper (c : ascii) : PyStr.is_cased (PyStr.to_upper c) = PyStr.is_cased c.
Proof. by destruct c as [[] [] [] [] [] [] [] []]. Qed.

Lemma is_cased_to_lower (c : ascii) : PyStr.is_cased (PyStr.to_lower c) = PyStr.is_cased c.
Proof. by destruct c as [[] [] [] [] [] [] [] []]. Qed.

Lemma to_upper_idemp (c : ascii) : PyStr.to_upper (PyStr.to_upper c) = PyStr.to_upper c.
Proof. by destruct c as [[] [] [] [] [] [] [] []]. Qed.

Lemma to_lower_idemp (c : ascii) : PyStr.to_lower (PyStr.to_lower c) = PyStr.to_lower c.
Proof. by destruct c as [[] [] [] [] [] [] [] []]. Qed.

Lemma title_from_idemp (b : bool) (s : string) :
  PyStr.title_from b (PyStr.title_from b s) = PyStr.title_from b s.
Proof.
  revert b. induction s as [|c s IH]; intros b; [done|].
  cbn [PyStr.title_from]. destruct b.
  - rewrite to_lower_idemp, is_cased_to_lower. by rewrite IH.
  - rewrite to_upper_idemp, is_cased_to_upper. by rewrite IH.
Qed.

Lemma title_idemp (s : string) : PyStr.title (PyStr.title s) = PyStr.title s.
Proof. apply title_from_idemp. Qed.

Section TitleCase.
Context {G : Type} `{!Geometry G} (env : Env G).

(** X9: on ASCII text title-casing is idempotent.  So when the raw crime
    cells of the Boston and Somerville tables are ASCII text, the label of
    every emitted record is in title case, and a text that is not its own
    title-cased form (a category-table key in upper case, say) is the label
    of no record. *)
Theorem boston_somerville_labels_in_title_case key :
  Forall (λ r, ∀ s, r !! "Crime" = Some s → PyStr.is_ascii s = true) (BOSTON_CRIME_CSV env) →
  Forall (λ r, ∀ s, r !! "Offense Type" = Some s → PyStr.is_ascii s = true)
         (SOMERVILLE_CRIME_CSV env) →
  PyStr.title key ≠ key →
  (∀ rows, load_boston_crime env = Some rows →
     Forall (λ o, crime_label o ≠ Some key
                  ∧ ∀ l, crime_label o = Some l → PyStr.title l = l) rows)
  ∧ Forall (λ o, crime_label o ≠ Some key
                 ∧ ∀ l, crime_label o = Some l → PyStr.title l = l)
           (load_somerville_crime env).
Proof.
  intros _ _ Hkey.
  assert (∀ (o : row G) s, crime_label o = Some (PyStr.title s) →
            crime_label o ≠ Some key
            ∧ ∀ l, crime_label o = Some l → PyStr.title l = l) as Htitle.
  { intros o s Ho. rewrite Ho. split.
    - intros [= <-]. by rewrite title_idemp in Hkey.
    - intros l [= <-]. apply title_idemp. }
  split.
  - intros rows Hrows%load_boston_crime_rows.
    eapply Forall2_Forall_r; [exact Hrows|]. apply Forall_forall.
    intros r _ o Ho.
    destruct (boston_record_fields env r o Ho) as (Hl & _).
    destruct (r !! "Crime") as [s|]; [by apply (Htitle o s)|].
    rewrite Hl. by split.
  - apply Forall_forall. intros o (r & nb & _ & ->)%load_somerville_crime_rows.
    destruct (somerville_emitted_fields env r nb) as (Hl & _).
    by apply (Htitle _ _ Hl).
Qed.

End TitleCase.

(** X9, on the sample data set: its raw labels are ASCII text, and no
    Somerville record is labelled ["LARCENY"]. *)
Lemma title_case_labels_sample :
  Forall (λ r, ∀ s, r !! "Crime" = Some s → PyStr.is_ascii s = true) (BOSTON_CRIME_CSV sample_env)
  ∧ Forall (λ r, ∀ s, r !! "Offense Type" = Some s → PyStr.is_ascii s = true)
           (SOMERVILLE_CRIME_CSV sample_env)
  ∧ PyStr.title "LARCENY" ≠ "LARCENY"
  ∧ Forall (λ o, crime_label o ≠ Some "LARCENY"
                 ∧ ∀ l, crime_label o = Some l → PyStr.title l = l)
           (load_somerville_crime sample_env).
Proof.
  assert (Forall (λ r : text_row, ∀ s, r !! "Crime" = Some s → PyStr.is_ascii s = true)
            (BOSTON_CRIME_CSV sample_env)) as Hb.
  { repeat constructor. intros s Hs. vm_compute in Hs.
    apply (inj Some) in Hs. by subst s. }
  assert (Forall (λ r : text_row, ∀ s, r !! "Offense Type" = Some s → PyStr.is_ascii s = true)
            (SOMERVILLE_CRIME_CSV sample_env)) as Hs.
  { repeat constructor; intros s Hs; vm_compute in Hs;
      try discriminate; apply (inj Some) in Hs; by subst s. }
  assert (PyStr.title "LARCENY" ≠ "LARCENY") as Hkey by discriminate.
  split; [exact Hb|]. split; [exact Hs|]. split; [exact Hkey|].
  exact (proj2 (boston_somerville_labels_in_title_case sample_env _ Hb Hs Hkey)).
Defined.

(** ** Which census blocks a crime row can match *)

Lemma rstrip_last (chars s : string) (c : ascii) :
  last (PyStr.to_list (PyStr.rstrip chars s)) = Some c →
  PyStr.mem_chars chars c = false.
Proof.
  unfold PyStr.rstrip, PyStr.rstrip_by. rewrite to_list_of_list.
  rewrite rev_is_reverse, last_reverse. intros Hc.
  by apply (drop_while_spec (PyStr.mem_chars chars) (rev (PyStr.to_list s))).
Qed.

Section BlockMatching.
Context {G : Type} `{!Geometry G} (env : Env G).

Lemma somerville_blocks_attrs (b : feature G) :
  b ∈ features (somerville_blocks env) →
  ∃ f, f ∈ features (MA_CENSUS_BLOCKS env)
       ∧ attrs f !! "TOWN" = Some "SOMERVILLE" ∧ attrs b = attrs f.
Proof.
  unfold somerville_blocks. cbv zeta. intros Hb.
  apply list_elem_of_lookup in Hb as [i Hi].
  destruct (Forall2_lookup_r _ _ _ _ _ (features_normalize_crs _) Hi)
    as (f & Hf & Hattrs & _).
  cbn [features] in Hf. apply list_elem_of_lookup_2 in Hf.
  apply list_elem_of_filter in Hf as [Htown Hf]. by exists f.
Qed.

(** X10: a census block joined to a crime row is a block of the town
    SOMERVILLE whose identifier is the row's block code after the textual
    trim; so its identifier ends neither in ['0'] nor in ['.'], and a block
    whose identifier ends in a zero digit is joined to no crime row. *)
Theorem matched_block_is_trimmed_somerville_block r b :
  b ∈ matching_blocks env r →
  (∃ f, f ∈ features (MA_CENSUS_BLOCKS env) ∧ attrs b = attrs f)
  ∧ attrs b !! "TOWN" = Some "SOMERVILLE"
  ∧ attrs b !! "GEOID20" = Some (PyStr.rstrip ".0" (astype_str (r !! "Block Code")))
  ∧ ∀ id c, attrs b !! "GEOID20" = Some id →
            last (PyStr.to_list id) = Some c → c ≠ "."%char ∧ c ≠ "0"%char.
Proof.
  unfold matching_blocks. intros [Hid Hb]%list_elem_of_filter.
  rewrite somerville_block_code in Hid.
  destruct (somerville_blocks_attrs b Hb) as (f & Hf & Htown & Hattrs).
  split; [by exists f|]. split; [by rewrite Hattrs|]. split; [exact Hid|].
  intros id c Hid' Hlast. rewrite Hid in Hid'. injection Hid' as <-.
  apply rstrip_last in Hlast. unfold PyStr.mem_chars in Hlast.
  apply bool_decide_eq_false in Hlast. cbn in Hlast.
  rewrite !not_elem_of_cons in Hlast. by destruct Hlast as (? & ? & _).
Qed.

(** X11: the number of records a crime row yields is one when no block
    matches, and otherwise the sum over the matching blocks of the number
    of neighborhood polygons the block intersects, counted as one when it
    intersects none; the loaded table is never shorter than the file. *)
Theorem somerville_join_multiplicity :
  (∀ r, length (somerville_rows env r)
        = match matching_blocks env r with
          | [] => 1
          | bs =>
              sum_list ((λ b, Nat.max 1 (length (intersecting_neighborhoods env
                                                   (geometry b)))) <$> bs)
          end)
  ∧ (length (SOMERVILLE_CRIME_CSV env) ≤ length (load_somerville_crime env))%nat.
Proof.
  split.
  - intros r. rewrite somerville_rows_spec, length_fmap.
    unfold somerville_neighborhoods.
    destruct (matching_blocks env r) as [|b bs]; [done|].
    generalize (b :: bs) as l. clear b bs. intros l.
    induction l as [|b l IH]; [done|].
    rewrite bind_cons, length_app, IH, fmap_cons. cbn [sum_list sum_list_with].
    f_equal. destruct (intersecting_neighborhoods env (geometry b)) as [|p ps]; [done|].
    rewrite length_fmap. cbn [length]. unfold id. lia.
  - unfold load_somerville_crime.
    induction (SOMERVILLE_CRIME_CSV env) as [|r l IH]; [done|].
    rewrite bind_cons, length_app. cbn [length].
    pose proof (somerville_join_nonempty env r) as Hne.
    destruct (somerville_rows env r); [done|]. cbn [length]. lia.
Qed.

End BlockMatching.

(** X10, on the sample data set: the block joined to the assault row. *)
Lemma matched_block_sample :
  matching_blocks sample_env assault_row !! 0%nat
  = Some (mkfeature {[ "GEOID20" := "250173501001"; "TOWN" := "SOMERVILLE" ]}
                    (mkrect 21 0 22 1))
  ∧ PyStr.rstrip ".0" (astype_str (assault_row !! "Block Code")) = "250173501001".
Proof.
  assert (matching_blocks sample_env assault_row !! 0%nat
          = Some (mkfeature {[ "GEOID20" := "250173501001"; "TOWN" := "SOMERVILLE" ]}
                            (mkrect 21 0 22 1))) as Hb
    by (vm_compute; reflexivity).
  split; [exact Hb|].
  destruct (matched_block_is_trimmed_somerville_block sample_env assault_row _
              (list_elem_of_lookup_2 _ _ _ Hb)) as (_ & _ & Hid & _).
  cbn [attrs] in Hid. symmetry. apply (inj Some). rewrite <-Hid.
  vm_compute. reflexivity.
Defined.

(** ** More on the area-weighted apportionment *)

Section DictLookups.
Context {K : Type} `{Countable K} {V : Type}.
Implicit Types (items : list (K * V)) (k : K) (v : V).

Lemma to_dict_app_cons items k v rest :
  k ∉ rest.*1 → to_dict (items ++ (k, v) :: rest) !! k = Some v.
Proof.
  induction rest as [|[k' v'] rest IH] using rev_ind; intros Hk.
  - apply to_dict_lookup_last.
  - rewrite app_comm_cons, app_assoc, to_dict_snoc.
    rewrite fmap_app, not_elem_of_app in Hk. destruct Hk as [Hk Hk'].
    rewrite lookup_insert_ne; [by apply IH|].
    cbn in Hk'. rewrite not_elem_of_cons in Hk'. by destruct Hk'.
Qed.

Lemma to_dict_lookup_Some items k v :
  to_dict items !! k = Some v → (k, v) ∈ items.
Proof.
  induction items as [|[k' v'] items IH] using rev_ind.
  - change (to_dict (@nil (K * V))) with (∅ : gmap K V). by rewrite lookup_empty.
  - rewrite to_dict_snoc, elem_of_app. destruct (decide (k' = k)) as [->|Hne].
    + rewrite lookup_insert_eq. intros [= ->]. right. by apply list_elem_of_singleton.
    + rewrite lookup_insert_ne by done. intros Hk. left. by apply IH.
Qed.

End DictLookups.

Lemma Qsum_nonneg (l : list Q) : Forall (λ a, 0 <= a)%Q l → (0 <= Qsum l)%Q.
Proof.
  induction 1 as [|a l Ha Hl IH]; [apply Qle_refl|].
  exact (Qplus_le_compat 0 a 0 (Qsum l) Ha IH).
Qed.

Lemma Qsum_elem_le (l : list Q) (a : Q) :
  Forall (λ a, 0 <= a)%Q l → a ∈ l → (a <= Qsum l)%Q.
Proof.
  induction 1 as [|b l Hb Hl IH]; [by intros ?%elem_of_nil|].
  change (Qsum (b :: l)) with (b + Qsum l)%Q.
  intros [->|Ha]%elem_of_cons.
  - pose proof (Qplus_le_compat b b 0 (Qsum l) (Qle_refl b) (Qsum_nonneg l Hl)) as Hle.
    by rewrite Qplus_0_r in Hle.
  - pose proof (Qplus_le_compat 0 b a (Qsum l) Hb (IH Ha)) as Hle.
    by rewrite Qplus_0_l in Hle.
Qed.

Section ApportionmentMore.
Context {G : Type} `{!Geometry G}.
Implicit Types (geo_df : GeoDataFrame G) (f : feature G) (P : Z).

(** X12: with a non-zero total area the keys of the apportionment are
    exactly the values of the [NBHD] column, a null name included, and a
    name shared by several regions holds the share of the last of them. *)
Theorem apportionment_keeps_last_region_of_a_name geo_df P :
  ¬ (total_projected_area geo_df == 0)%Q →
  (∀ k, is_Some (_build_area_weighted_population geo_df P !! k)
        ↔ k ∈ region_names geo_df)
  ∧ (∀ before f after,
       features geo_df = (before ++ f :: after)%list →
       (∀ f', f' ∈ after → attrs f' !! "NBHD" ≠ attrs f !! "NBHD") →
       _build_area_weighted_population geo_df P !! (attrs f !! "NBHD")
       = Some (area_share geo_df f P)).
Proof.
  intros Hne. rewrite build_nonzero by done. split.
  - intros k. by rewrite to_dict_is_Some, region_items_keys.
  - intros before f after Hsplit Hafter. rewrite Hsplit, fmap_app, fmap_cons.
    apply to_dict_app_cons. rewrite <-list_fmap_compose.
    intros (f' & Hk & Hf')%list_elem_of_fmap. cbn in Hk. by apply (Hafter f' Hf').
Qed.

(** X13: when no region has a negative projected area and the total
    population is not negative, every value of the apportionment lies
    between zero and the total population. *)
Theorem apportionment_values_bounded geo_df P k v :
  (∀ f, f ∈ features geo_df → (0 <= projected_area geo_df f)%Q) →
  (0 ≤ P)%Z →
  _build_area_weighted_population geo_df P !! k = Some v →
  (0 <= v)%Q ∧ (v <= inject_Z P)%Q.
Proof.
  intros Hareas HP.
  assert (0 <= inject_Z P)%Q as HPq.
  { change 0%Q with (inject_Z 0). by rewrite <-Zle_Qle. }
  destruct (Qeq_dec (total_projected_area geo_df) 0) as [Hz|Hne].
  - rewrite build_zero by done. intros Hk%to_dict_lookup_Some.
    apply list_elem_of_fmap in Hk as (name & [= _ ->] & _).
    split; [done|apply Qle_refl].
  - rewrite build_nonzero by done. intros Hk%to_dict_lookup_Some.
    apply list_elem_of_fmap in Hk as (f & [= _ ->] & Hf).
    assert (Forall (λ a, 0 <= a)%Q (projected_area geo_df <$> features geo_df)) as Hall.
    { apply Forall_fmap, Forall_forall. intros f' Hf'. by apply Hareas. }
    assert (0 <= total_projected_area geo_df)%Q as Htot by (by apply Qsum_nonneg).
    assert (0 < total_projected_area geo_df)%Q as Hpos.
    { apply Qle_lteq in Htot as [Hlt|Heq]; [done|]. destruct Hne. by symmetry. }
    assert (projected_area geo_df f <= total_projected_area geo_df)%Q as Hle.
    { apply Qsum_elem_le; [done|]. apply list_elem_of_fmap. by exists f. }
    unfold area_share. split.
    + apply Qmult_le_0_compat; [|done].
      apply Qle_shift_div_l; [done|]. rewrite Qmult_0_l. by apply Hareas.
    + rewrite <-(Qmult_1_l (inject_Z P)) at 2.
      apply Qmult_le_compat_r; [|done].
      apply Qle_shift_div_r; [done|]. by rewrite Qmult_1_l.
Qed.

End ApportionmentMore.

(** X12, on two regions under one name: the entry is the later region's
    share, 3. *)
Lemma apportionment_last_region_sample :
  ¬ (total_projected_area shared_name_regions == 0)%Q
  ∧ _build_area_weighted_population shared_name_regions 4 !! Some "East"
    = Some (area_share shared_name_regions
              (mkfeature {[ "NBHD" := "East" ]} (mkrect 0 1 3 2)) 4).
Proof.
  assert (¬ (total_projected_area shared_name_regions == 0)%Q) as Hne
    by (intros Hz; vm_compute in Hz; discriminate Hz).
  split; [exact Hne|].
  refine (proj2 (apportionment_keeps_last_region_of_a_name shared_name_regions 4 Hne)
            [mkfeature {[ "NBHD" := "East" ]} (mkrect 0 0 1 1)]
            (mkfeature {[ "NBHD" := "East" ]} (mkrect 0 1 3 2)) [] eq_refl _).
  by intros f' ?%elem_of_nil.
Defined.

(** X13, on the regions of areas 10, 20 and 70: the East value lies between
    0 and 2000. *)
Lemma apportionment_values_bounded_sample :
  (∀ f, f ∈ features three_regions → (0 <= projected_area three_regions f)%Q)
  ∧ _build_area_weighted_population three_regions 2000 !! Some "East"
    = Some (area_share three_regions
              (mkfeature {[ "NBHD" := "East" ]} (mkrect 0 0 10 1)) 2000)
  ∧ (0 <= area_share three_regions
            (mkfeature {[ "NBHD" := "East" ]} (mkrect 0 0 10 1)) 2000)%Q
  ∧ (area_share three_regions
       (mkfeature {[ "NBHD" := "East" ]} (mkrect 0 0 10 1)) 2000 <= inject_Z 2000)%Q.
Proof.
  assert (∀ f, f ∈ features three_regions → (0 <= projected_area three_regions f)%Q)
    as Hareas.
  { intros f Hf. cbn [features three_regions] in Hf.
    repeat (apply elem_of_cons in Hf as [->|Hf]); [..|by apply elem_of_nil in Hf];
      vm_compute; discriminate. }
  assert (_build_area_weighted_population three_regions 2000 !! Some "East"
          = Some (area_share three_regions
                    (mkfeature {[ "NBHD" := "East" ]} (mkrect 0 0 10 1)) 2000)) as Hk
    by (vm_compute; reflexivity).
  split; [exact Hareas|]. split; [exact Hk|].
  assert (0 ≤ 2000)%Z as HP by lia.
  exact (apportionment_values_bounded three_regions 2000 _ _ Hareas HP Hk).
Defined.

Section SomervillePopulation.
Context {G : Type} `{!Geometry G} (env : Env G).
Implicit Types (f : feature G).

Lemma load_somerville_geo_mapped_name f :
  f ∈ features (load_somerville_geo env) →
  attrs f !! "Mapped_Name" = attrs f !! "NBHD".
Proof.
  intros (g & _ & ->)%elem_of_assign_attr.
  by rewrite attrs_set_attr_eq, attrs_set_attr_ne.
Qed.

Lemma build_is_Some (geo_df : GeoDataFrame G) (P : Z) (k : option string) :
  is_Some (_build_area_weighted_population geo_df P !! k)
  ↔ k ∈ region_names geo_df
    ∧ ((total_projected_area geo_df == 0)%Q → k ≠ None).
Proof.
  destruct (Qeq_dec (total_projected_area geo_df) 0) as [Hz|Hne].
  - rewrite build_zero, to_dict_is_Some, fallback_items_keys by done.
    rewrite list_elem_of_fmap. split.
    + intros (name & -> & Hin). apply elem_of_unique, elem_of_dropna in Hin. done.
    + intros [Hin Hk]. destruct k as [name|]; [|by destruct (Hk Hz)].
      exists name. split; [done|]. by apply elem_of_unique, elem_of_dropna.
  - rewrite build_nonzero, to_dict_is_Some, region_items_keys by done.
    split; [|by intros [? _]]. intros Hin. split; [done|]. by intros Hz.
Qed.

(** X14: whenever the Somerville bundle is produced, its population table
    has an entry for the canonical name of every named region of its
    geometry, and no entry under a name that is not the canonical name of
    one of its regions. *)
Theorem somerville_population_covers_regions (s : Bundle G) :
  get_somerville_bundle env = Some s →
  (∀ f name, f ∈ features (geo s) →
     attrs f !! "Mapped_Name" = Some name →
     is_Some (population s !! Some name))
  ∧ (∀ k, is_Some (population s !! k) →
       ∃ f, f ∈ features (geo s) ∧ attrs f !! "Mapped_Name" = k).
Proof.
  unfold get_somerville_bundle. cbv zeta. intros Hs. apply (inj Some) in Hs. subst s.
  cbn [geo population]. split.
  - intros f name Hf Hname. apply build_is_Some. split; [|done].
    unfold region_names. apply list_elem_of_fmap. exists f. split; [|done].
    by rewrite <-Hname, load_somerville_geo_mapped_name.
  - intros k [Hin _]%build_is_Some. unfold region_names in Hin.
    apply list_elem_of_fmap in Hin as (f & -> & Hf). exists f. split; [done|].
    by apply load_somerville_geo_mapped_name.
Qed.

End SomervillePopulation.

Lemma sample_somerville_bundle :
  get_somerville_bundle sample_env = Some sample_somerville.
Proof. reflexivity. Qed.

(** X14, on the sample data set: Winter Hill, a region of the Somerville
    geometry, has a population entry. *)
Lemma somerville_population_sample :
  get_somerville_bundle sample_env = Some sample_somerville
  ∧ features (geo sample_somerville) !! 0%nat
    = Some (mkfeature {[ "NBHD" := "Winter Hill"; "Mapped_Name" := "Winter Hill" ]}
                      (mkrect 20 0 23 2))
  ∧ is_Some (population sample_somerville !! Some "Winter Hill").
Proof.
  pose proof sample_somerville_bundle as Hs.
  assert (features (geo sample_somerville) !! 0%nat
          = Some (mkfeature {[ "NBHD" := "Winter Hill"; "Mapped_Name" := "Winter Hill" ]}
                            (mkrect 20 0 23 2))) as Hf by (vm_compute; reflexivity).
  split; [exact Hs|]. split; [exact Hf|].
  apply (proj1 (somerville_population_covers_regions sample_env _ Hs) _ "Winter Hill"
           (list_elem_of_lookup_2 _ _ _ Hf)).
  vm_compute. reflexivity.
Defined.

(** ** When the default day and month apply *)






